(** * serenity-clojure / local/run.py : identifier remapping and the
      consistency wait loop

    The script [local/run.py] creates a test event through a command API,
    rewrites the activity identifiers of a template document
    ([adjust_ids]) and, after polling the object store, publishes the
    rewritten document.  This development embeds the script and proves
    the properties its specification states about it.

    Conventions of the embedding.
    - The template document is the value returned by [json.load]: a tree
      of fresh dictionaries and lists, without sharing.  In-place
      mutation of such a tree is therefore modelled by functional update
      of one [Document] value that is threaded through the passes, and
      the document state is returned also when an exception is raised.
    - Documents have the shape of the data model: the keys read by
      [adjust_ids] are present and an ['activity-id'] or ['name'] holds a
      string.  Every other key of a dictionary is kept in a [*_rest]
      field, in order.
    - An exception is a value of [exn]; a loop returns the state reached
      together with [None] (normal completion) or [Some e] (raised).
    - Calls to [print] are not part of the model.
    - Line 133 of the script holds the stray marker [// ai], which is not
      a Python statement; the model reads the script without that line. *)

From Stdlib Require Import ZArith Ascii String List Lia Permutation.
From stdpp Require Import gmap strings list fin_maps.

Local Open Scope string_scope.
Local Open Scope list_scope.

(** ** JSON values carried along by the document *)

Unset Elimination Schemes.
Inductive json : Type :=
| JNull
| JBool (b : bool)
| JInt (n : Z)
| JFloat (bits : Z)            (* a binary64 pattern; never inspected *)
| JStr (s : string)
| JList (l : list json)
| JDict (kv : list (string * json)).
Set Elimination Schemes.

(** The remaining keys of a dictionary, in insertion order. *)
Definition fields : Type := list (string * json).

(** ** Data model of the aggregate document *)

(** An element of [data['event']['activities']]. *)
Record ActivityDefinition : Type := mkDef {
  activity_id : string;          (* activity['activity-id'] *)
  name : string;                 (* activity['name'] *)
  activity_rest : fields
}.

(** A dictionary holding an ['activity-id'] reference: an element of a
    participant's ['activities'] list, or a category record. *)
Record ActivityRef : Type := mkRef {
  ref_activity_id : string;      (* activity['activity-id'] *)
  ref_rest : fields
}.

(** An element of [data['attrs']['participants']]; [activities] is [None]
    when the key ['activities'] is not in the dictionary. *)
Record Participant : Type := mkParticipant {
  activities : option (list ActivityRef);
  participant_rest : fields
}.

Record Event : Type := mkEvent {
  event_activities : list ActivityDefinition;   (* data['event']['activities'] *)
  event_rest : fields
}.

Record Attrs : Type := mkAttrs {
  participants : list Participant;              (* data['attrs']['participants'] *)
  categories : list ActivityRef;                (* data['attrs']['categories'] *)
  attrs_rest : fields
}.

Record Document : Type := mkDocument {
  event : Event;                                (* data['event'] *)
  attrs : Attrs;                                (* data['attrs'] *)
  doc_rest : fields
}.

(** In-place assignments, as functional updates. *)

Definition set_activity_id (v : string) (a : ActivityDefinition) : ActivityDefinition :=
  {| activity_id := v; name := name a; activity_rest := activity_rest a |}.

Definition set_ref_activity_id (v : string) (r : ActivityRef) : ActivityRef :=
  {| ref_activity_id := v; ref_rest := ref_rest r |}.

Definition set_activities (l : list ActivityRef) (p : Participant) : Participant :=
  {| activities := Some l; participant_rest := participant_rest p |}.

Definition set_event_activities (l : list ActivityDefinition) (d : Document) : Document :=
  {| event := {| event_activities := l; event_rest := event_rest (event d) |};
     attrs := attrs d; doc_rest := doc_rest d |}.

Definition set_participants (l : list Participant) (d : Document) : Document :=
  {| event := event d;
     attrs := {| participants := l; categories := categories (attrs d);
                 attrs_rest := attrs_rest (attrs d) |};
     doc_rest := doc_rest d |}.

Definition set_categories (l : list ActivityRef) (d : Document) : Document :=
  {| event := event d;
     attrs := {| participants := participants (attrs d); categories := l;
                 attrs_rest := attrs_rest (attrs d) |};
     doc_rest := doc_rest d |}.

(** ** Exceptions *)

Inductive exn : Type :=
| UnboundLocalError (var : string)   (* a local variable read before assignment *)
| KeyError (key : string)            (* a dictionary subscript without entry *)
| ClientError (code : string)        (* botocore: e.response['Error']['Code'] *)
| RequestException                   (* requests.exceptions.RequestException *)
| OtherException (what : string).    (* any other exception of a collaborator *)

(** ** The four fixed activity names *)

Definition fixed_names : list string := ["Kata"; "Kumite"; "Team Kata"; "Coach"].

Definition is_fixed_name (nm : string) : bool :=
  String.eqb nm "Kata" || String.eqb nm "Kumite"
  || String.eqb nm "Team Kata" || String.eqb nm "Coach".

(** ** adjust_ids (run.py, lines 70-97) *)

Section AdjustIds.

(** The module-level identifiers of lines 26-29. *)
Variables kata_id kumite_id team_id coach_id : string.

(** Lines 79-86: four independent [if] statements on [activity["name"]].
    [v] is the local variable [new_activity_id] before them ([None]:
    not yet bound); the result is the variable after them.  There is no
    [else]: a name outside the four leaves the variable as it was. *)
Definition assign_new_activity_id (nm : string) (v : option string) : option string :=
  let v := if String.eqb nm "Kata" then Some kata_id else v in
  let v := if String.eqb nm "Kumite" then Some kumite_id else v in
  let v := if String.eqb nm "Team Kata" then Some team_id else v in
  let v := if String.eqb nm "Coach" then Some coach_id else v in
  v.

(** The identifier the script pairs with a name (lines 79-86 read as a
    table); [None] for a name outside the four. *)
Definition name_to_new_id (nm : string) : option string :=
  assign_new_activity_id nm None.

(** Lines 76-88, the loop over [data['event']['activities']].
    Arguments: the activities still to visit, [activity_id_map] and
    [new_activity_id].  Result: the activities after the loop, the map,
    and the exception raised, if any.  Line 87 reads [new_activity_id];
    when it is unbound the loop stops there and nothing of the current
    activity has been written. *)
Fixpoint adjust_definitions (acts : list ActivityDefinition)
    (activity_id_map : gmap string string) (new_activity_id : option string)
    : list ActivityDefinition * gmap string string * option exn :=
  match acts with
  | [] => ([], activity_id_map, None)
  | activity :: rest =>
      let original_activity_id := activity_id activity in
      match assign_new_activity_id (name activity) new_activity_id with
      | None => (activity :: rest, activity_id_map,
                 Some (UnboundLocalError "new_activity_id"))
      | Some v =>
          let '(rest', m, e) :=
            adjust_definitions rest (<[original_activity_id := v]> activity_id_map) (Some v) in
          (set_activity_id v activity :: rest', m, e)
      end
  end.

(** Lines 93-94 and 96-97: the loop over a list of references.  The
    subscript [activity_id_map[...]] raises [KeyError] for a missing
    key, before the assignment. *)
Fixpoint adjust_refs (activity_id_map : gmap string string) (refs : list ActivityRef)
    : list ActivityRef * option exn :=
  match refs with
  | [] => ([], None)
  | activity :: rest =>
      match activity_id_map !! ref_activity_id activity with
      | None => (activity :: rest, Some (KeyError (ref_activity_id activity)))
      | Some v =>
          let '(rest', e) := adjust_refs activity_id_map rest in
          (set_ref_activity_id v activity :: rest', e)
      end
  end.

(** Lines 91-94, the loop over [data['attrs']['participants']]. *)
Fixpoint adjust_participants (activity_id_map : gmap string string) (ps : list Participant)
    : list Participant * option exn :=
  match ps with
  | [] => ([], None)
  | participant :: rest =>
      match activities participant with
      | None =>
          let '(rest', e) := adjust_participants activity_id_map rest in
          (participant :: rest', e)
      | Some acts =>
          match adjust_refs activity_id_map acts with
          | (acts', Some e) => (set_activities acts' participant :: rest, Some e)
          | (acts', None) =>
              let '(rest', e) := adjust_participants activity_id_map rest in
              (set_activities acts' participant :: rest', e)
          end
      end
  end.

(** The identifier map and the definitions after the first loop. *)
Definition definitions_pass (d : Document)
    : list ActivityDefinition * gmap string string * option exn :=
  adjust_definitions (event_activities (event d)) ∅ None.

(** [adjust_ids data_to_modify]: the document after the call, and the
    exception raised, if any ([None]: the call returned). *)
Definition adjust_ids (data_to_modify : Document) : Document * option exn :=
  let '(acts', activity_id_map, e1) := definitions_pass data_to_modify in
  let d1 := set_event_activities acts' data_to_modify in
  match e1 with
  | Some e => (d1, Some e)
  | None =>
      let '(ps', e2) := adjust_participants activity_id_map (participants (attrs d1)) in
      let d2 := set_participants ps' d1 in
      match e2 with
      | Some e => (d2, Some e)
      | None =>
          let '(cs', e3) := adjust_refs activity_id_map (categories (attrs d2)) in
          (set_categories cs' d2, e3)
      end
  end.

End AdjustIds.

(** ** adjust_ids with the iteration order of each loop made explicit

    The four [for] loops of [adjust_ids] visit their list front to back.
    To state what depends on that order, the same loop bodies are run
    here over an arbitrary sequence of positions; the element at a
    position is read from, and written back to, the list in place. *)

(** [for i in order: body], stopping at the first exception. *)
Fixpoint for_indices {St : Type} (body : nat → St → St * option exn)
    (order : list nat) (s : St) : St * option exn :=
  match order with
  | [] => (s, None)
  | i :: order' =>
      match body i s with
      | (s', Some e) => (s', Some e)
      | (s', None) => for_indices body order' s'
      end
  end.

(** The order of the four loops: the outer three, and for the participant
    at each position the order of its ['activities']. *)
Record Orders : Type := mkOrders {
  definitions_order : list nat;
  participants_order : list nat;
  activities_order : nat → list nat;
  categories_order : list nat
}.

Section AdjustIdsInOrder.

Variables kata_id kumite_id team_id coach_id : string.

(** Body of the loop of lines 76-88 at position [i]. *)
Definition visit_definition (i : nat)
    (st : list ActivityDefinition * gmap string string * option string)
    : list ActivityDefinition * gmap string string * option string * option exn :=
  let '(acts, activity_id_map, new_activity_id) := st in
  match acts !! i with
  | None => (st, None)
  | Some activity =>
      let original_activity_id := activity_id activity in
      match assign_new_activity_id kata_id kumite_id team_id coach_id
              (name activity) new_activity_id with
      | None => (st, Some (UnboundLocalError "new_activity_id"))
      | Some v =>
          ((<[i := set_activity_id v activity]> acts,
            <[original_activity_id := v]> activity_id_map, Some v), None)
      end
  end.

(** Body of the loops of lines 93-94 and 96-97 at position [i]. *)
Definition visit_ref (activity_id_map : gmap string string) (i : nat)
    (refs : list ActivityRef) : list ActivityRef * option exn :=
  match refs !! i with
  | None => (refs, None)
  | Some activity =>
      match activity_id_map !! ref_activity_id activity with
      | None => (refs, Some (KeyError (ref_activity_id activity)))
      | Some v => (<[i := set_ref_activity_id v activity]> refs, None)
      end
  end.

(** Body of the loop of lines 91-94 at position [i]. *)
Definition visit_participant (activity_id_map : gmap string string)
    (inner : nat → list nat) (i : nat) (ps : list Participant)
    : list Participant * option exn :=
  match ps !! i with
  | None => (ps, None)
  | Some participant =>
      match activities participant with
      | None => (ps, None)
      | Some acts =>
          let '(acts', e) := for_indices (visit_ref activity_id_map) (inner i) acts in
          (<[i := set_activities acts' participant]> ps, e)
      end
  end.

Definition adjust_ids_in_order (o : Orders) (data_to_modify : Document)
    : Document * option exn :=
  let '(acts', activity_id_map, _, e1) :=
    for_indices visit_definition (definitions_order o)
      (event_activities (event data_to_modify), ∅, None) in
  let d1 := set_event_activities acts' data_to_modify in
  match e1 with
  | Some e => (d1, Some e)
  | None =>
      let '(ps', e2) :=
        for_indices (visit_participant activity_id_map (activities_order o))
          (participants_order o) (participants (attrs d1)) in
      let d2 := set_participants ps' d1 in
      match e2 with
      | Some e => (d2, Some e)
      | None =>
          let '(cs', e3) :=
            for_indices (visit_ref activity_id_map) (categories_order o)
              (categories (attrs d2)) in
          (set_categories cs' d2, e3)
      end
  end.

End AdjustIdsInOrder.

(** The ['activities'] list of the participant at position [i] (empty
    when there is none). *)
Definition activities_at (ps : list Participant) (i : nat) : list ActivityRef :=
  match ps !! i with
  | Some p => default [] (activities p)
  | None => []
  end.

(** The order in which the script's loops run: front to back. *)
Definition document_order (d : Document) : Orders :=
  {| definitions_order := seq 0 (length (event_activities (event d)));
     participants_order := seq 0 (length (participants (attrs d)));
     activities_order := fun i => seq 0 (length (activities_at (participants (attrs d)) i));
     categories_order := seq 0 (length (categories (attrs d))) |}.

(** [o] visits every position of every list of [d] exactly once. *)
Definition reordering (o : Orders) (d : Document) : Prop :=
  Permutation (definitions_order o) (definitions_order (document_order d))
  ∧ Permutation (participants_order o) (participants_order (document_order d))
  ∧ (∀ i, Permutation (activities_order o i) (activities_order (document_order d) i))
  ∧ Permutation (categories_order o) (categories_order (document_order d)).

(** ** The collaborators of the script and what it does to them *)

(** Outcome of [s3_client.head_object]. *)
Inductive head_response : Type :=
| HeadFound                          (* the call returns: the object exists *)
| HeadClientError (code : string)    (* ClientError with this error code *)
| HeadOtherError (what : string).    (* an exception that is not a ClientError *)

(** The calls the script makes, in the order it makes them. *)
Inductive action : Type :=
| Uuid4 (result : string)            (* str(uuid.uuid4()) *)
| Now (result : string)              (* datetime.now().strftime("%d/%H-%M") *)
| Post (body : json)                 (* requests.post(url, ..., json=body) *)
| LoadSample                         (* json.load of 'sample.json' *)
| Makedirs (path : string)           (* os.makedirs(path, exist_ok=True) *)
| WriteFile (path : string) (content : Document)   (* json.dump(content, f) *)
| HeadObject                         (* s3_client.head_object *)
| Sleep (seconds : Z)                (* time.sleep *)
| PutObject (body : Document).       (* s3_client.put_object, Body = the dumped document *)

Definition is_head (a : action) : bool :=
  match a with HeadObject => true | _ => false end.
Definition is_put (a : action) : bool :=
  match a with PutObject _ => true | _ => false end.

Definition count_actions (p : action → bool) (tr : list action) : nat :=
  length (List.filter p tr).

(** How a run of the [try] block ends. *)
Inductive outcome : Type :=
| Completed                 (* the block ran to its end *)
| Handled (e : exn)         (* caught by the [except] clause of line 176 *)
| Uncaught (e : exn).       (* propagates out of the script *)

(** ** The wait loop and the publish (run.py, lines 143-167) *)

(** How the [while] statement of lines 148-165 is left. *)
Inductive loop_exit : Type :=
| Break                     (* line 152: the object was found *)
| TimedOut                  (* the [else] clause of line 163 *)
| Raise (e : exn).          (* line 162, or an exception passing through *)

(** Line 154: [e.response['Error']['Code'] in ['404', 'NoSuchKey']]. *)
Definition is_not_found (code : string) : bool :=
  String.eqb code "404" || String.eqb code "NoSuchKey".

Section WaitThenPublish.

Variable max_wait_seconds : Z.
Variable wait_interval_seconds : Z.
(** The response of the object store to the existence check number [n]
    (counted from 0). *)
Variable head_object : nat → head_response.
(** The exception raised by [put_object], if any. *)
Variable put_object : option exn.

(** Lines 148-165.  [checks] is the number of existence checks made so
    far, [time_waited] the variable of that name.  [fuel] bounds the
    number of iterations; [None] when it is used up.  [time.sleep]
    raises [ValueError] for a negative argument. *)
Fixpoint wait_loop (fuel : nat) (checks : nat) (time_waited : Z)
    : option (list action * loop_exit) :=
  match fuel with
  | O => None
  | S fuel' =>
      if (time_waited <? max_wait_seconds)%Z then
        match head_object checks with
        | HeadFound => Some ([HeadObject], Break)
        | HeadClientError code =>
            if is_not_found code then
              if (wait_interval_seconds <? 0)%Z then
                Some ([HeadObject; Sleep wait_interval_seconds],
                      Raise (OtherException "ValueError"))
              else
                match wait_loop fuel' (S checks) (time_waited + wait_interval_seconds)%Z with
                | Some (tr, x) => Some (HeadObject :: Sleep wait_interval_seconds :: tr, x)
                | None => None
                end
            else Some ([HeadObject], Raise (ClientError code))
        | HeadOtherError what => Some ([HeadObject], Raise (OtherException what))
        end
      else Some ([], TimedOut)
  end.

(** Lines 143-167: the loop starting from [time_waited = 0], then the
    [put_object] of line 167 on both normal exits of the loop. *)
Definition wait_then_publish (fuel : nat) (body : Document)
    : option (list action * outcome) :=
  match wait_loop fuel 0 0%Z with
  | None => None
  | Some (tr, Raise e) => Some (tr, Uncaught e)
  | Some (tr, _) =>
      Some (tr ++ [PutObject body],
            match put_object with Some e => Uncaught e | None => Completed end)
  end.

End WaitThenPublish.

(** The ceiling of [a / b] for [0 < b]. *)
Definition ceil_div (a b : Z) : Z := (- ((- a) / b))%Z.

(** The object store answers "not found" to the existence check number [n]. *)
Definition reports_not_found (head_object : nat → head_response) (n : nat) : Prop :=
  ∃ code, head_object n = HeadClientError code ∧ is_not_found code = true.

(** The calls [tr] happen first, then those of [r]. *)
Definition after {X : Type} (tr : list action) (r : option (list action * X))
    : option (list action * X) :=
  match r with
  | Some (tr', x) => Some (tr ++ tr', x)
  | None => None
  end.

(** How the script ends after the [put_object] of line 167. *)
Definition published (put_object : option exn) : outcome :=
  match put_object with
  | Some e => Uncaught e
  | None => Completed
  end.

(** [k] rounds of "check, not found, sleep". *)
Definition polls (k : nat) (interval : Z) : list action :=
  concat (replicate k [HeadObject; Sleep interval]).

(** ** The script (run.py, lines 10-177) *)

(** What the script's collaborators answer during one run. *)
Record World : Type := mkWorld {
  uuid4 : nat → string;          (* the value of the n-th call of str(uuid.uuid4()) *)
  now : string;                  (* datetime.now().strftime("%d/%H-%M") *)
  post_ok : bool;                (* false: post, raise_for_status or response.json()
                                    raises a RequestException *)
  sample : Document;             (* the content of 'sample.json' *)
  s3_head_object : nat → head_response;
  s3_put_object : option exn
}.

(** [d[k] = v] on the remaining keys of a dictionary: an existing key
    keeps its place, a new key goes last. *)
Fixpoint dict_set (k : string) (v : json) (kv : fields) : fields :=
  match kv with
  | [] => [(k, v)]
  | (k', v') :: kv' =>
      if String.eqb k' k then (k, v) :: kv' else (k', v') :: dict_set k v kv'
  end.

(** [s.replace('/', '-')] *)
Fixpoint replace_slash (s : string) : string :=
  match s with
  | EmptyString => EmptyString
  | String c s' =>
      String (if Ascii.eqb c "/"%char then "-"%char else c) (replace_slash s')
  end.

Section Script.

Variable w : World.

(** Lines 10-13 and 26-29. *)
Definition event_id : string := uuid4 w 0.
Definition name_suffix : string := now w.
Definition request_id : string := uuid4 w 1.
Definition interaction_id : string := uuid4 w 2.
Definition kata_id : string := "#" +:+ uuid4 w 3.
Definition kumite_id : string := "#" +:+ uuid4 w 4.
Definition team_id : string := "#" +:+ uuid4 w 5.
Definition coach_id : string := "#" +:+ uuid4 w 6.

(** Lines 31-68: the command envelope. *)
Definition data : json :=
  JDict
    [ ("request-id", JStr ("#" +:+ request_id));
      ("interaction-id", JStr ("#" +:+ interaction_id));
      ("commands",
       JList
         [ JDict
             [ ("cmd-id", JStr ":create-event");
               ("application-id", JStr "#d3f9ed78-8f80-4808-bad6-388a26c09558");
               ("event-id", JStr ("#" +:+ event_id));
               ("attrs",
                JDict
                  [ ("name", JStr ("Test '" +:+ name_suffix +:+ "'"));
                    ("date", JStr "2025-06-14");
                    ("type", JStr ":tournament");
                    ("activities",
                     JList
                       [ JDict [("activity-id", JStr kata_id); ("name", JStr "Kata")];
                         JDict [("activity-id", JStr kumite_id); ("name", JStr "Kumite")];
                         JDict [("activity-id", JStr team_id); ("name", JStr "Team Kata")];
                         JDict [("activity-id", JStr coach_id); ("name", JStr "Coach")] ]) ]) ] ]);
      ("user", JDict [("selected-role", JNull)]) ].

(** Lines 10-29: the calls made while the module-level names are bound. *)
Definition allocate : list action :=
  [ Uuid4 event_id; Now name_suffix; Uuid4 request_id; Uuid4 interaction_id;
    Uuid4 (uuid4 w 3); Uuid4 (uuid4 w 4); Uuid4 (uuid4 w 5); Uuid4 (uuid4 w 6) ].

(** Lines 143-144. *)
Definition max_wait_seconds : Z := 300.
Definition wait_interval_seconds : Z := 10.

Definition old_file_path : string := "./tmp/" +:+ replace_slash name_suffix +:+ ".old.json".
Definition new_file_path : string := "./tmp/" +:+ replace_slash name_suffix +:+ ".new.json".

(** Lines 113-116: the sample with its ['id'] replaced. *)
Definition sample_data : Document :=
  {| event := event (sample w); attrs := attrs (sample w);
     doc_rest := dict_set "id" (JStr ("#" +:+ event_id)) (doc_rest (sample w)) |}.

(** Lines 99-177.  The loop is given 31 iterations, one more than it
    can make with the constants of lines 143-144. *)
Definition try_block : option (list action * outcome) :=
  if post_ok w then
    let before := [Post data; LoadSample; Makedirs "./tmp"; WriteFile old_file_path sample_data] in
    match adjust_ids kata_id kumite_id team_id coach_id sample_data with
    | (_, Some e) => Some (before, Uncaught e)
    | (modified, None) =>
        match wait_then_publish max_wait_seconds wait_interval_seconds
                (s3_head_object w) (s3_put_object w) 31 modified with
        | Some (tr, o) => Some (before ++ WriteFile new_file_path modified :: tr, o)
        | None => None
        end
    end
  else Some ([Post data], Handled RequestException).

(** The whole script: the calls it makes and how it ends. *)
Definition run : option (list action * outcome) :=
  match try_block with
  | Some (tr, o) => Some (allocate ++ tr, o)
  | None => None
  end.

End Script.

(** The activity-id that the envelope pairs with a name: the
    ['activity-id'] of the first element of
    [data['commands'][0]['attrs']['activities']] having that ['name']. *)
Definition dict_get (k : string) (j : json) : option json :=
  match j with
  | JDict kv => snd <$> List.find (fun p => String.eqb (fst p) k) kv
  | _ => None
  end.




(** ** Vocabulary of the properties *)

Definition definitions (d : Document) : list ActivityDefinition :=
  event_activities (event d).

(** The original identifiers of the definitions. *)
Definition original_ids (d : Document) : list string :=
  activity_id <$> definitions d.

Definition participant_refs (p : Participant) : list ActivityRef :=
  default [] (activities p).

(** Every reference site outside the definitions, in document order:
    the activities of each participant, then the categories. *)
Definition references (d : Document) : list ActivityRef :=
  concat (participant_refs <$> participants (attrs d)) ++ categories (attrs d).

(** Every definition has one of the four fixed names. *)
Definition all_names_fixed (d : Document) : Prop :=
  Forall (fun a => is_fixed_name (name a) = true) (definitions d).

(** Exactly one definition per fixed name. *)
Definition one_definition_per_name (d : Document) : Prop :=
  ∀ nm, nm ∈ fixed_names →
    length (List.filter (fun a => String.eqb (name a) nm) (definitions d)) = 1.

(** Every participant/category reference is the original identifier of
    some definition. *)
Definition all_references_resolve (d : Document) : Prop :=
  Forall (fun r => ref_activity_id r ∈ original_ids d) (references d).

(** The definition a reference to [x] corresponds to: the definition
    whose original identifier is [x] (the last one in document order,
    should several have it). *)
Fixpoint defining (x : string) (acts : list ActivityDefinition) : option ActivityDefinition :=
  match acts with
  | [] => None
  | a :: rest =>
      match defining x rest with
      | Some b => Some b
      | None => if String.eqb (activity_id a) x then Some a else None
      end
  end.

(** Some participant/category reference is the original identifier of no
    definition. *)
Definition some_reference_dangles (d : Document) : Prop :=
  Exists (fun r => ref_activity_id r ∉ original_ids d) (references d).

(** The definitions a reference corresponds to all have the same name (as
    is the case when the original identifiers are pairwise distinct). *)
Definition references_determine_names (d : Document) : Prop :=
  ∀ r a b, r ∈ references d → a ∈ definitions d → b ∈ definitions d →
           activity_id a = ref_activity_id r → activity_id b = ref_activity_id r →
           name a = name b.

(** A reference rewritten through the map. *)
Definition rewrite_ref (m : gmap string string) (r : ActivityRef) : ActivityRef :=
  match m !! ref_activity_id r with
  | Some v => set_ref_activity_id v r
  | None => r
  end.

Definition rewrite_participant (m : gmap string string) (p : Participant) : Participant :=
  match activities p with
  | Some acts => set_activities (rewrite_ref m <$> acts) p
  | None => p
  end.

Definition resolved (m : gmap string string) (r : ActivityRef) : Prop :=
  is_Some (m !! ref_activity_id r).

(** The document reached when all three loops complete. *)
Definition rewrite_document (acts' : list ActivityDefinition) (m : gmap string string)
    (d : Document) : Document :=
  {| event := {| event_activities := acts'; event_rest := event_rest (event d) |};
     attrs := {| participants := rewrite_participant m <$> participants (attrs d);
                 categories := rewrite_ref m <$> categories (attrs d);
                 attrs_rest := attrs_rest (attrs d) |};
     doc_rest := doc_rest d |}.

(** The document with every activity-id field blanked: what is left is
    everything [adjust_ids] is not meant to touch. *)
Definition blank_ref (r : ActivityRef) : ActivityRef := set_ref_activity_id "" r.

Definition blank_participant (p : Participant) : Participant :=
  {| activities := fmap (M := list) blank_ref <$> activities p;
     participant_rest := participant_rest p |}.

Definition without_activity_ids (d : Document) : Document :=
  {| event := {| event_activities := set_activity_id "" <$> definitions d;
                 event_rest := event_rest (event d) |};
     attrs := {| participants := blank_participant <$> participants (attrs d);
                 categories := blank_ref <$> categories (attrs d);
                 attrs_rest := attrs_rest (attrs d) |};
     doc_rest := doc_rest d |}.

Section RewriteDefinition.

Variables kata_id kumite_id team_id coach_id : string.

(** A definition carrying the identifier of its name. *)
Definition rewrite_definition (a : ActivityDefinition) : ActivityDefinition :=
  match name_to_new_id kata_id kumite_id team_id coach_id (name a) with
  | Some v => set_activity_id v a
  | None => a
  end.

End RewriteDefinition.

(** ** Three statements of the specification, as it words them

    Each is a property of one document; the properties section decides
    for which documents it holds. *)

Section AsStated.

Variables kata_id kumite_id team_id coach_id : string.

(** "If a participant (or category) references an activity-id not
    present among the definitions, remap fails and performs no partial
    mutation observable to the caller": the call raises and the
    document is what it was. *)
Definition fails_without_mutation (d : Document) : Prop :=
  some_reference_dangles d →
  ∃ e, adjust_ids kata_id kumite_id team_id coach_id d = (d, Some e).

(** "The result does not depend on the iteration order within any of
    the three passes." *)
Definition order_independent (d : Document) : Prop :=
  ∀ o, reordering o d →
    adjust_ids_in_order kata_id kumite_id team_id coach_id o d
    = adjust_ids kata_id kumite_id team_id coach_id d.

(** "For a document with two or more definitions sharing a fixed name,
    adjust_ids does not fail, assigns all such definitions the new
    identifier of that name, and maps each of their original
    identifiers to that new identifier." *)
Definition duplicates_share_new_id (d : Document) : Prop :=
  ∀ i j a b,
    i ≠ j → definitions d !! i = Some a → definitions d !! j = Some b →
    name a = name b → is_fixed_name (name a) = true →
    ∃ d' acts' m w,
      adjust_ids kata_id kumite_id team_id coach_id d = (d', None)
      ∧ definitions_pass kata_id kumite_id team_id coach_id d = (acts', m, None)
      ∧ name_to_new_id kata_id kumite_id team_id coach_id (name a) = Some w
      ∧ activity_id <$> definitions d' !! i = Some w
      ∧ activity_id <$> definitions d' !! j = Some w
      ∧ m !! activity_id a = Some w
      ∧ m !! activity_id b = Some w.

End AsStated.

(** ** Sample documents *)

(** The end-to-end scenario of the specification: definitions A1..A4, a
    participant in A2, a participant without activities, a category of
    A1. *)
Definition scenario : Document :=
  {| event := {| event_activities :=
                   [ mkDef "A1" "Kata" []; mkDef "A2" "Kumite" [];
                     mkDef "A3" "Team Kata" []; mkDef "A4" "Coach" [] ];
                 event_rest := [("name", JStr "Template")] |};
     attrs := {| participants :=
                   [ mkParticipant (Some [mkRef "A2" []]) [("first-name", JStr "Aiko")];
                     mkParticipant None [("first-name", JStr "Ben")] ];
                 categories := [ mkRef "A1" [("name", JStr "U12")] ];
                 attrs_rest := [] |};
     doc_rest := [("id", JStr "#old")] |}.

(** A document with the given definitions and categories and no
    participant. *)
Definition small_document (defs : list ActivityDefinition) (cats : list ActivityRef)
    : Document :=
  {| event := {| event_activities := defs; event_rest := [] |};
     attrs := {| participants := []; categories := cats; attrs_rest := [] |};
     doc_rest := [] |}.

(** A definition named "Judo" after the one named "Kata". *)
Definition with_unknown_name : Document :=
  small_document [mkDef "A1" "Kata" []; mkDef "A5" "Judo" []] [].

(** The scenario with a second category, of an activity "Z" that is not
    defined. *)
Definition with_dangling_category : Document :=
  set_categories [mkRef "A1" [("name", JStr "U12")]; mkRef "Z" []] scenario.

(** One definition per name, those of "Kata" and "Kumite" with the same
    original identifier, and a category of that identifier. *)
Definition with_shared_original_id : Document :=
  small_document
    [ mkDef "A" "Kata" []; mkDef "A" "Kumite" [];
      mkDef "C" "Team Kata" []; mkDef "D" "Coach" [] ]
    [mkRef "A" []].

(** Two definitions named "Kata", and a later one named "Kumite" with the
    original identifier of the first. *)
Definition with_duplicate_names : Document :=
  small_document
    [mkDef "A" "Kata" []; mkDef "B" "Kata" []; mkDef "A" "Kumite" []] [].

(** The first loop back to front, the others front to back. *)
Definition definitions_reversed (d : Document) : Orders :=
  {| definitions_order := rev (definitions_order (document_order d));
     participants_order := participants_order (document_order d);
     activities_order := activities_order (document_order d);
     categories_order := categories_order (document_order d) |}.

(** ** Further vocabulary *)

(** There is no definition, or the first one has one of the four fixed
    names. *)
Definition first_name_fixed (d : Document) : Prop :=
  match definitions d with
  | [] => True
  | a :: _ => is_fixed_name (name a) = true
  end.

(** The ['event-id'] of the first command of an envelope. *)
Definition envelope_event_id (envelope : json) : option json :=
  match dict_get "commands" envelope with
  | Some (JList (cmd :: _)) => dict_get "event-id" cmd
  | _ => None
  end.

(** The characters of a string. *)
Fixpoint characters (s : string) : list ascii :=
  match s with
  | EmptyString => []
  | String c s' => c :: characters s'
  end.

(** The seconds slept during a sequence of calls. *)
Fixpoint slept (tr : list action) : Z :=
  match tr with
  | [] => 0
  | Sleep n :: tr' => n + slept tr'
  | _ :: tr' => slept tr'
  end.

(** ** Sample worlds *)

(** A store that answers "not found" twice and then "found". *)
Definition found_at_third_check (n : nat) : head_response :=
  if (n <? 2)%nat then HeadClientError "404" else HeadFound.

(** A store in which the object never appears. *)
Definition never_found (n : nat) : head_response := HeadClientError "NoSuchKey".

(** A store that answers "not found" once and then denies access. *)
Definition access_denied_at_second_check (n : nat) : head_response :=
  if (n <? 1)%nat then HeadClientError "404" else HeadClientError "AccessDenied".

(** A run in which everything succeeds and the object is there at the
    third check. *)
Definition calm_world : World :=
  {| uuid4 := fun n => nth n ["e0"; "r1"; "i2"; "k3"; "k4"; "k5"; "k6"] "";
     now := "14/09-30";
     post_ok := true;
     sample := scenario;
     s3_head_object := found_at_third_check;
     s3_put_object := None |}.

(** The document and the calls of the run in the calm world. *)
Definition calm_document : Document :=
  (adjust_ids "#k3" "#k4" "#k5" "#k6" (sample_data calm_world)).1.

Definition calm_trace : list action :=
  [ Uuid4 "e0"; Now "14/09-30"; Uuid4 "r1"; Uuid4 "i2";
    Uuid4 "k3"; Uuid4 "k4"; Uuid4 "k5"; Uuid4 "k6";
    Post (data calm_world); LoadSample; Makedirs "./tmp";
    WriteFile "./tmp/14-09-30.old.json" (sample_data calm_world);
    WriteFile "./tmp/14-09-30.new.json" calm_document;
    HeadObject; Sleep 10; HeadObject; Sleep 10; HeadObject;
    PutObject calm_document ].

(** * Properties *)

(** ** Facts about the loops of adjust_ids *)

Section AdjustIdsFacts.

Variables kata_id kumite_id team_id coach_id : string.

Local Abbreviation assign := (assign_new_activity_id kata_id kumite_id team_id coach_id).
Local Abbreviation new_id := (name_to_new_id kata_id kumite_id team_id coach_id).
Local Abbreviation adjust_defs := (adjust_definitions kata_id kumite_id team_id coach_id).
Local Abbreviation adjust := (adjust_ids kata_id kumite_id team_id coach_id).

Lemma assign_fixed nm v :
  is_fixed_name nm = true → assign nm v = new_id nm ∧ is_Some (new_id nm).
Proof.
  unfold is_fixed_name, name_to_new_id, assign_new_activity_id.
  destruct (String.eqb nm "Coach") eqn:E4; [eauto|].
  destruct (String.eqb nm "Team Kata") eqn:E3; [eauto|].
  destruct (String.eqb nm "Kumite") eqn:E2; [eauto|].
  destruct (String.eqb nm "Kata") eqn:E1; [eauto|].
  simpl. discriminate.
Qed.

Lemma assign_other nm v : is_fixed_name nm = false → assign nm v = v.
Proof.
  unfold is_fixed_name, assign_new_activity_id.
  destruct (String.eqb nm "Coach"), (String.eqb nm "Team Kata"),
    (String.eqb nm "Kumite"), (String.eqb nm "Kata"); simpl; congruence.
Qed.

Lemma new_id_is_fixed nm w : new_id nm = Some w → is_fixed_name nm = true.
Proof.
  intros H. destruct (is_fixed_name nm) eqn:E; [done|].
  unfold name_to_new_id in H. rewrite (assign_other _ _ E) in H. discriminate.
Qed.

Lemma defining_spec x acts a :
  defining x acts = Some a → a ∈ acts ∧ activity_id a = x.
Proof.
  induction acts as [|b rest IH]; simpl; [discriminate|].
  destruct (defining x rest) as [c|].
  - intros [= <-]. destruct IH as [? ?]; [done|]. split; [by right|done].
  - destruct (String.eqb_spec (activity_id b) x); [|discriminate].
    intros [= <-]. split; [by left|done].
Qed.

Lemma defining_None x acts :
  defining x acts = None ↔ x ∉ activity_id <$> acts.
Proof.
  induction acts as [|b rest IH]; simpl.
  - split; [intros _; apply not_elem_of_nil|done].
  - rewrite not_elem_of_cons. destruct (defining x rest) as [c|].
    + split; [discriminate|]. intros [_ H]. by apply IH in H.
    + destruct (String.eqb_spec (activity_id b) x) as [->|Hne].
      * split; [discriminate|]. intros [H _]. by destruct H.
      * split; [|done]. intros _. split; [congruence|]. by apply IH.
Qed.

Lemma defining_is_Some x acts :
  x ∈ activity_id <$> acts → is_Some (defining x acts).
Proof.
  intros H. destruct (defining x acts) eqn:E; [eauto|].
  apply defining_None in E. done.
Qed.

(** When the original identifiers are pairwise distinct, the definition
    a reference corresponds to is the one with that identifier. *)
Lemma defining_NoDup acts a :
  NoDup (activity_id <$> acts) → a ∈ acts → defining (activity_id a) acts = Some a.
Proof.
  induction acts as [|b rest IH]; intros Hnd Ha; [by apply elem_of_nil in Ha|].
  rewrite fmap_cons in Hnd. apply NoDup_cons in Hnd as [Hb Hnd]. simpl.
  apply elem_of_cons in Ha as [->|Ha].
  - apply defining_None in Hb. by rewrite Hb, String.eqb_refl.
  - by rewrite (IH Hnd Ha).
Qed.

(** The first loop on definitions that all have a fixed name. *)
Lemma adjust_definitions_fixed acts :
  Forall (fun a => is_fixed_name (name a) = true) acts →
  ∀ m v, ∃ acts' m',
    adjust_defs acts m v = (acts', m', None)
    ∧ Forall2 (fun a a' => ∃ w, new_id (name a) = Some w ∧ a' = set_activity_id w a) acts acts'
    ∧ ∀ x, m' !! x = match defining x acts with
                     | Some a => new_id (name a)
                     | None => m !! x
                     end.
Proof.
  induction 1 as [|a rest Ha _ IH]; intros m v.
  - exists [], m. split; [done|]. split; [constructor|done].
  - simpl. destruct (assign_fixed _ v Ha) as [-> [w Hw]]. rewrite Hw.
    destruct (IH (<[activity_id a := w]> m) (Some w)) as (rest' & m' & -> & HF & Hm).
    exists (set_activity_id w a :: rest'), m'. split; [done|]. split.
    + constructor; [eauto|done].
    + intros x. rewrite Hm. destruct (defining x rest); [done|].
      destruct (String.eqb_spec (activity_id a) x) as [->|Hne].
      * by rewrite lookup_insert_eq.
      * by rewrite lookup_insert_ne.
Qed.

(** The keys of the map built by the first loop are the original
    identifiers, whatever the names. *)
Lemma adjust_definitions_keys acts :
  ∀ m v acts' m', adjust_defs acts m v = (acts', m', None) →
    ∀ x, is_Some (m' !! x) ↔ x ∈ activity_id <$> acts ∨ is_Some (m !! x).
Proof.
  induction acts as [|a rest IH]; intros m v acts' m'; simpl.
  - intros [= <- <-] x. rewrite elem_of_nil. tauto.
  - destruct (assign (name a) v) as [w|]; [|discriminate].
    destruct (adjust_defs rest _ _) as [[rest' m1] e] eqn:E.
    intros [= <- <- ->] x. rewrite (IH _ _ _ _ E x), elem_of_cons.
    destruct (decide (activity_id a = x)) as [->|Hne].
    + rewrite lookup_insert_eq. split; [eauto|]. intros _. right. eauto.
    + rewrite lookup_insert_ne by done. split; [tauto|].
      intros [[?|?]|?]; [congruence|tauto|tauto].
Qed.

Lemma adjust_refs_resolved m refs :
  Forall (resolved m) refs → adjust_refs m refs = (rewrite_ref m <$> refs, None).
Proof.
  induction 1 as [|r rest [v Hv] _ IH]; [done|].
  simpl. unfold rewrite_ref at 1. rewrite Hv, IH. done.
Qed.

Lemma adjust_refs_unresolved m pre r post :
  Forall (resolved m) pre → m !! ref_activity_id r = None →
  adjust_refs m (pre ++ r :: post)
  = ((rewrite_ref m <$> pre) ++ r :: post, Some (KeyError (ref_activity_id r))).
Proof.
  intros Hpre Hr. induction Hpre as [|q pre [v Hv] _ IH]; simpl.
  - by rewrite Hr.
  - unfold rewrite_ref at 1. rewrite Hv, IH. done.
Qed.

Lemma adjust_participants_resolved m ps :
  Forall (fun p => Forall (resolved m) (participant_refs p)) ps →
  adjust_participants m ps = (rewrite_participant m <$> ps, None).
Proof.
  induction 1 as [|p rest Hp _ IH]; [done|].
  rewrite fmap_cons. simpl. unfold rewrite_participant, participant_refs in *.
  destruct (activities p) as [acts|]; simpl in *.
  - by rewrite (adjust_refs_resolved _ _ Hp), IH.
  - by rewrite IH.
Qed.

Lemma adjust_participants_unresolved m pre p post apre r apost :
  Forall (fun p => Forall (resolved m) (participant_refs p)) pre →
  activities p = Some (apre ++ r :: apost) →
  Forall (resolved m) apre → m !! ref_activity_id r = None →
  adjust_participants m (pre ++ p :: post)
  = ((rewrite_participant m <$> pre)
       ++ set_activities ((rewrite_ref m <$> apre) ++ r :: apost) p :: post,
     Some (KeyError (ref_activity_id r))).
Proof.
  intros Hpre Hp Hapre Hr. induction Hpre as [|q pre Hq _ IH]; simpl.
  - by rewrite Hp, (adjust_refs_unresolved _ _ _ _ Hapre Hr).
  - rewrite IH. unfold rewrite_participant, participant_refs in *.
    destruct (activities q) as [acts|]; simpl in *.
    + by rewrite (adjust_refs_resolved _ _ Hq).
    + done.
Qed.

End AdjustIdsFacts.

(** ** adjust_ids on concrete documents *)

Example scenario_adjusted :
  adjust_ids "N1" "N2" "N3" "N4" scenario =
  ({| event := {| event_activities :=
                   [ mkDef "N1" "Kata" []; mkDef "N2" "Kumite" [];
                     mkDef "N3" "Team Kata" []; mkDef "N4" "Coach" [] ];
                 event_rest := [("name", JStr "Template")] |};
     attrs := {| participants :=
                   [ mkParticipant (Some [mkRef "N2" []]) [("first-name", JStr "Aiko")];
                     mkParticipant None [("first-name", JStr "Ben")] ];
                 categories := [ mkRef "N1" [("name", JStr "U12")] ];
                 attrs_rest := [] |};
     doc_rest := [("id", JStr "#old")] |}, None).
Proof. vm_compute. reflexivity. Qed.

Example unknown_name_first :
  adjust_ids "N1" "N2" "N3" "N4" (small_document [mkDef "A5" "Judo" []] [])
  = (small_document [mkDef "A5" "Judo" []] [], Some (UnboundLocalError "new_activity_id")).
Proof. vm_compute. reflexivity. Qed.

Example dangling_category_adjusted :
  adjust_ids "N1" "N2" "N3" "N4" with_dangling_category =
  ({| event := {| event_activities :=
                   [ mkDef "N1" "Kata" []; mkDef "N2" "Kumite" [];
                     mkDef "N3" "Team Kata" []; mkDef "N4" "Coach" [] ];
                 event_rest := [("name", JStr "Template")] |};
     attrs := {| participants :=
                   [ mkParticipant (Some [mkRef "N2" []]) [("first-name", JStr "Aiko")];
                     mkParticipant None [("first-name", JStr "Ben")] ];
                 categories := [ mkRef "N1" [("name", JStr "U12")]; mkRef "Z" [] ];
                 attrs_rest := [] |};
     doc_rest := [("id", JStr "#old")] |}, Some (KeyError "Z")).
Proof. vm_compute. reflexivity. Qed.

Example shared_original_id_in_document_order :
  adjust_ids "N1" "N2" "N3" "N4" with_shared_original_id
  = (small_document
       [ mkDef "N1" "Kata" []; mkDef "N2" "Kumite" [];
         mkDef "N3" "Team Kata" []; mkDef "N4" "Coach" [] ]
       [mkRef "N2" []], None).
Proof. vm_compute. reflexivity. Qed.

Example shared_original_id_reversed :
  adjust_ids_in_order "N1" "N2" "N3" "N4"
    (definitions_reversed with_shared_original_id) with_shared_original_id
  = (small_document
       [ mkDef "N1" "Kata" []; mkDef "N2" "Kumite" [];
         mkDef "N3" "Team Kata" []; mkDef "N4" "Coach" [] ]
       [mkRef "N1" []], None).
Proof. vm_compute. reflexivity. Qed.

(** ** What adjust_ids does to a document *)

Section AdjustIdsProperties.

Variables kata_id kumite_id team_id coach_id : string.

Local Abbreviation new_id := (name_to_new_id kata_id kumite_id team_id coach_id).
Local Abbreviation adjust_defs := (adjust_definitions kata_id kumite_id team_id coach_id).
Local Abbreviation first_pass := (definitions_pass kata_id kumite_id team_id coach_id).
Local Abbreviation adjust := (adjust_ids kata_id kumite_id team_id coach_id).

Lemma participant_refs_rewrite m p :
  participant_refs (rewrite_participant m p) = rewrite_ref m <$> participant_refs p.
Proof.
  unfold rewrite_participant, participant_refs.
  destruct (activities p) eqn:E; simpl; [done|by rewrite E].
Qed.

Lemma concat_refs_rewrite m ps :
  concat (participant_refs <$> (rewrite_participant m <$> ps))
  = rewrite_ref m <$> concat (participant_refs <$> ps).
Proof.
  induction ps as [|p ps IH]; [done|].
  rewrite !fmap_cons. simpl. by rewrite fmap_app, participant_refs_rewrite, IH.
Qed.

Lemma concat_refs_app ps qs :
  concat (participant_refs <$> ps ++ qs)
  = concat (participant_refs <$> ps) ++ concat (participant_refs <$> qs).
Proof. by rewrite fmap_app, concat_app. Qed.

Lemma concat_refs_cons p ps :
  concat (participant_refs <$> p :: ps)
  = participant_refs p ++ concat (participant_refs <$> ps).
Proof. done. Qed.

Lemma participant_refs_set_activities l p :
  participant_refs (set_activities l p) = l.
Proof. done. Qed.

Lemma participant_refs_Some p l :
  activities p = Some l → participant_refs p = l.
Proof. unfold participant_refs. by intros ->. Qed.

Lemma Forall_concat_refs (P : ActivityRef → Prop) ps :
  Forall P (concat (participant_refs <$> ps))
  ↔ Forall (fun p => Forall P (participant_refs p)) ps.
Proof.
  induction ps as [|p ps IH].
  - split; constructor.
  - rewrite fmap_cons. simpl. rewrite Forall_app, Forall_cons, IH. done.
Qed.

(** After a first loop that completes, the keys of the map are the
    original identifiers. *)
Lemma first_pass_resolved d acts' m r :
  first_pass d = (acts', m, None) →
  resolved m r ↔ ref_activity_id r ∈ original_ids d.
Proof.
  intros H. unfold resolved.
  rewrite (adjust_definitions_keys _ _ _ _ _ _ _ _ _ H (ref_activity_id r)).
  rewrite lookup_empty. split; [|by left].
  intros [?|[? ?]]; done.
Qed.

Lemma references_rewrite_document acts' m d :
  references (rewrite_document acts' m d) = rewrite_ref m <$> references d.
Proof.
  unfold references. simpl. by rewrite fmap_app, concat_refs_rewrite.
Qed.

Lemma adjust_ids_completes d acts' m :
  first_pass d = (acts', m, None) →
  all_references_resolve d →
  adjust d = (rewrite_document acts' m d, None).
Proof.
  intros H1 Hres. unfold adjust_ids. rewrite H1. simpl.
  assert (Forall (resolved m) (references d)) as Hr.
  { eapply Forall_impl; [exact Hres|]. intros r Hr. simpl in Hr.
    by apply (first_pass_resolved _ _ _ _ H1). }
  unfold references in Hr. apply Forall_app in Hr as [Hp Hc].
  apply Forall_concat_refs in Hp.
  rewrite (adjust_participants_resolved _ _ Hp). simpl.
  rewrite (adjust_refs_resolved _ _ Hc). done.
Qed.

(** With fixed names and resolving references the call returns; the
    definitions carry the identifier of their name and the map sends
    an original identifier to the new identifier of the definition it
    corresponds to. *)
Lemma adjust_ids_fixed_resolved d :
  all_names_fixed d → all_references_resolve d →
  ∃ acts' m,
    first_pass d = (acts', m, None)
    ∧ adjust d = (rewrite_document acts' m d, None)
    ∧ Forall2 (fun a a' => ∃ w, new_id (name a) = Some w ∧ a' = set_activity_id w a)
        (definitions d) acts'
    ∧ ∀ x, m !! x = defining x (definitions d) ≫= (fun a => new_id (name a)).
Proof.
  intros Hfix Hres.
  destruct (adjust_definitions_fixed kata_id kumite_id team_id coach_id _ Hfix ∅ None)
    as (acts' & m & H1 & HF & Hm).
  exists acts', m. split; [exact H1|]. split; [by apply adjust_ids_completes|].
  split; [exact HF|].
  intros x. rewrite Hm. destruct (defining x (definitions d)); [done|].
  by rewrite lookup_empty.
Qed.

(** C1. For every document in which each definition has one of the
    four fixed names, there is exactly one definition per name, and
    every participant/category reference is the original identifier of
    some definition: [adjust_ids] returns, every definition keeps its
    name and carries the new identifier of that name, and every
    reference carries the new identifier of the name of the definition
    it corresponds to (a definition of the document whose original
    identifier is the reference's). *)
Theorem adjust_ids_referential_integrity d :
  all_names_fixed d → one_definition_per_name d → all_references_resolve d →
  ∃ d',
    adjust d = (d', None)
    ∧ Forall2 (fun a a' => name a' = name a ∧ new_id (name a) = Some (activity_id a'))
        (definitions d) (definitions d')
    ∧ Forall2 (fun r r' =>
                 ∃ a, a ∈ definitions d
                      ∧ activity_id a = ref_activity_id r
                      ∧ defining (ref_activity_id r) (definitions d) = Some a
                      ∧ new_id (name a) = Some (ref_activity_id r'))
        (references d) (references d').
Proof.
  intros Hfix _ Hres.
  destruct (adjust_ids_fixed_resolved d Hfix Hres) as (acts' & m & H1 & Hadj & HF & Hm).
  exists (rewrite_document acts' m d). split; [exact Hadj|]. split.
  - eapply Forall2_impl; [exact HF|]. intros a a' (w & Hw & ->). by split.
  - rewrite references_rewrite_document. apply Forall2_fmap_r, Forall_Forall2_diag.
    eapply Forall_impl; [exact Hres|]. intros r Hr. simpl in Hr.
    destruct (defining_is_Some _ _ Hr) as [a Ha].
    destruct (defining_spec _ _ _ Ha) as [Hin Hid].
    exists a. repeat split; try done.
    pose proof (Hm (ref_activity_id r)) as Hx. rewrite Ha in Hx. simpl in Hx.
    unfold all_names_fixed in Hfix. rewrite Forall_forall in Hfix.
    destruct (assign_fixed kata_id kumite_id team_id coach_id _ None (Hfix _ Hin))
      as [_ [w Hw]].
    rewrite Hw in Hx. unfold rewrite_ref. rewrite Hx. simpl. exact Hw.
Qed.

(** *** Duplicate names *)

Lemma defining_later acts : ∀ i a,
  acts !! i = Some a →
  (∀ k c, i < k → acts !! k = Some c → activity_id c = activity_id a → name c = name a) →
  ∃ c, defining (activity_id a) acts = Some c ∧ name c = name a.
Proof.
  induction acts as [|b rest IH]; intros i a Hi Hlater; [done|].
  simpl. destruct i as [|i]; simpl in Hi.
  - injection Hi as ->.
    destruct (defining (activity_id a) rest) as [c|] eqn:E.
    + exists c. split; [done|].
      destruct (defining_spec _ _ _ E) as [Hin Hid].
      apply list_elem_of_lookup in Hin as [k Hk].
      apply (Hlater (S k)); [lia|done|done].
    + rewrite String.eqb_refl. eauto.
  - destruct (IH i a Hi) as (c & -> & Hc); [|eauto].
    intros k c Hk. apply (Hlater (S k)). lia.
Qed.

(** C9, amended. For every document whose definitions all have a fixed
    name and whose references all resolve, and any two definitions of
    it sharing a name: [adjust_ids] returns, both definitions carry the
    new identifier of that name, and the identifier map sends the
    original identifier of each to that new identifier provided every
    later definition with the same original identifier has the same
    name. *)
Theorem duplicate_names_get_one_new_id d i j a b :
  all_names_fixed d → all_references_resolve d →
  i ≠ j → definitions d !! i = Some a → definitions d !! j = Some b →
  name a = name b →
  ∃ d' acts' m w,
    adjust d = (d', None)
    ∧ first_pass d = (acts', m, None)
    ∧ new_id (name a) = Some w
    ∧ activity_id <$> definitions d' !! i = Some w
    ∧ activity_id <$> definitions d' !! j = Some w
    ∧ ((∀ k c, i < k → definitions d !! k = Some c →
               activity_id c = activity_id a → name c = name a) →
       m !! activity_id a = Some w)
    ∧ ((∀ k c, j < k → definitions d !! k = Some c →
               activity_id c = activity_id b → name c = name b) →
       m !! activity_id b = Some w).
Proof.
  intros Hfix Hres _ Hi Hj Hab.
  destruct (adjust_ids_fixed_resolved d Hfix Hres) as (acts' & m & H1 & Hadj & HF & Hm).
  destruct (Forall2_lookup_l _ _ _ _ _ HF Hi) as (a' & Hi' & w & Hw & ->).
  destruct (Forall2_lookup_l _ _ _ _ _ HF Hj) as (b' & Hj' & w' & Hw' & ->).
  rewrite <- Hab in Hw'. rewrite Hw in Hw'. injection Hw' as <-.
  exists (rewrite_document acts' m d), acts', m, w.
  split; [exact Hadj|]. split; [exact H1|]. split; [exact Hw|].
  unfold definitions at 1 2. simpl. rewrite Hi', Hj'. simpl.
  split; [done|]. split; [done|]. split.
  - intros Hlater. destruct (defining_later _ _ _ Hi Hlater) as (c & Hc & Hn).
    rewrite Hm, Hc. simpl. by rewrite Hn.
  - intros Hlater. destruct (defining_later _ _ _ Hj Hlater) as (c & Hc & Hn).
    rewrite Hm, Hc. simpl. by rewrite Hn, <- Hab.
Qed.

(** *** A dangling reference *)

Lemma refs_first_unresolved m refs :
  Forall (resolved m) refs
  ∨ ∃ pre r post, refs = pre ++ r :: post
                  ∧ Forall (resolved m) pre ∧ m !! ref_activity_id r = None.
Proof.
  induction refs as [|r refs IH]; [by left|].
  destruct (m !! ref_activity_id r) as [v|] eqn:E.
  - destruct IH as [IH|(pre & q & post & -> & Hpre & Hq)].
    + left. constructor; [by exists v|done].
    + right. exists (r :: pre), q, post. split; [done|].
      split; [|done]. constructor; [by exists v|done].
  - right. exists [], r, refs. split; [done|]. split; [constructor|done].
Qed.

Lemma participants_first_unresolved m ps :
  Forall (fun p => Forall (resolved m) (participant_refs p)) ps
  ∨ ∃ pre p post apre r apost,
      ps = pre ++ p :: post
      ∧ Forall (fun p => Forall (resolved m) (participant_refs p)) pre
      ∧ activities p = Some (apre ++ r :: apost)
      ∧ Forall (resolved m) apre ∧ m !! ref_activity_id r = None.
Proof.
  induction ps as [|p ps IH]; [by left|].
  destruct (refs_first_unresolved m (participant_refs p))
    as [Hp|(apre & r & apost & Hp & Hapre & Hr)].
  - destruct IH as [IH|(pre & q & post & apre & r & apost & -> & Hpre & Hq)].
    + left. by constructor.
    + right. exists (p :: pre), q, post, apre, r, apost.
      split; [done|]. split; [by constructor|done].
  - right. exists [], p, ps, apre, r, apost. split; [done|].
    split; [constructor|]. split; [|done].
    unfold participant_refs in Hp. destruct (activities p); simpl in Hp; [by subst|].
    by destruct apre.
Qed.

(** C3, amended. For every document in which some participant or
    category reference is the original identifier of no definition,
    [adjust_ids] raises.  When its first loop completes, the exception
    is the [KeyError] of the first such reference in document order;
    the document then holds the definitions as the first loop rewrote
    them and every reference before the offending one rewritten through
    the map, while the offending reference and all later ones are as
    they were. *)
Theorem adjust_ids_dangling_reference d :
  some_reference_dangles d →
  ∃ d' e,
    adjust d = (d', Some e)
    ∧ ∀ acts' m, first_pass d = (acts', m, None) →
        ∃ pre r post,
          references d = pre ++ r :: post
          ∧ Forall (fun q => ref_activity_id q ∈ original_ids d) pre
          ∧ (ref_activity_id r ∉ original_ids d)
          ∧ e = KeyError (ref_activity_id r)
          ∧ definitions d' = acts'
          ∧ references d' = (rewrite_ref m <$> pre) ++ r :: post.
Proof.
  intros Hdang. unfold adjust_ids.
  destruct (first_pass d) as [[acts' m] [e1|]] eqn:H1.
  { eexists _, e1. split; [reflexivity|]. intros ? ? [=]. }
  assert (∀ q, resolved m q ↔ ref_activity_id q ∈ original_ids d) as Hkeys.
  { intros q. by apply (first_pass_resolved _ _ _ _ H1). }
  assert (∀ l, Forall (resolved m) l →
               Forall (fun q => ref_activity_id q ∈ original_ids d) l) as Hall.
  { intros l Hl. eapply Forall_impl; [exact Hl|]. intros q. apply Hkeys. }
  assert (∀ r, m !! ref_activity_id r = None → ref_activity_id r ∉ original_ids d) as Hnone.
  { intros r Hr Hin. apply Hkeys in Hin as [v Hv]. congruence. }
  simpl.
  destruct (participants_first_unresolved m (participants (attrs d)))
    as [Hps|(pre & p & post & apre & r & apost & Eps & Hpre & Hp & Hapre & Hr)].
  - rewrite (adjust_participants_resolved _ _ Hps). simpl.
    destruct (refs_first_unresolved m (categories (attrs d)))
      as [Hcs|(cpre & r & cpost & Ecs & Hcpre & Hr)].
    + exfalso. unfold some_reference_dangles in Hdang. apply Exists_exists in Hdang.
      destruct Hdang as (q & Hq & Hbad). apply Hbad, Hkeys.
      unfold references in Hq. apply elem_of_app in Hq as [Hq|Hq].
      * apply Forall_concat_refs in Hps. rewrite Forall_forall in Hps. by apply Hps.
      * rewrite Forall_forall in Hcs. by apply Hcs.
    + rewrite Ecs, (adjust_refs_unresolved _ _ _ _ Hcpre Hr).
      eexists _, _. split; [reflexivity|]. intros ? ? [= <- <-].
      exists (concat (participant_refs <$> participants (attrs d)) ++ cpre), r, cpost.
      unfold references. simpl. rewrite Ecs, concat_refs_rewrite.
      rewrite fmap_app, <- !app_assoc. repeat split; try done; [|by apply Hnone].
      apply Forall_app. split; [|by apply Hall].
      apply Hall. by apply Forall_concat_refs.
  - rewrite Eps, (adjust_participants_unresolved _ _ _ _ _ _ _ Hpre Hp Hapre Hr).
    eexists _, _. split; [reflexivity|]. intros ? ? [= <- <-].
    exists (concat (participant_refs <$> pre) ++ apre), r,
      (apost ++ concat (participant_refs <$> post) ++ categories (attrs d)).
    unfold references, definitions, set_participants, set_event_activities.
    cbn [attrs participants categories event event_activities]. rewrite Eps.
    rewrite !concat_refs_app, !concat_refs_cons, concat_refs_rewrite.
    rewrite (participant_refs_set_activities _ p), (participant_refs_Some _ _ Hp).
    rewrite fmap_app, <- !app_assoc. simpl.
    repeat split; try done; [|by apply Hnone].
    apply Forall_app. split; [|by apply Hall].
    apply Hall. by apply Forall_concat_refs.
Qed.

(** *** A name outside the four *)

(** The definition after one with a fixed name, when its own name is
    none of the four, is given the identifier of that other name. *)
Lemma adjust_definitions_stale a b rest m v w :
  new_id (name a) = Some w → is_fixed_name (name b) = false →
  ∃ rest' m' e,
    adjust_defs (a :: b :: rest) m v
    = (set_activity_id w a :: set_activity_id w b :: rest', m', e).
Proof.
  intros Hw Hb. simpl.
  destruct (assign_fixed kata_id kumite_id team_id coach_id _ v (new_id_is_fixed _ _ _ _ _ _ Hw))
    as [-> _].
  rewrite Hw, (assign_other _ _ _ _ _ _ Hb).
  destruct (adjust_defs rest _ _) as [[rest' m'] e]. by exists rest', m', e.
Qed.

(** *** What is left untouched *)

Lemma adjust_definitions_frame acts : ∀ m v,
  set_activity_id "" <$> (adjust_defs acts m v).1.1 = set_activity_id "" <$> acts.
Proof.
  induction acts as [|a rest IH]; intros m v; [done|].
  csimpl. destruct (assign_new_activity_id _ _ _ _ _ _) as [w|]; [|done].
  specialize (IH (<[activity_id a:=w]> m) (Some w)).
  destruct (adjust_defs rest _ _) as [[rest' m'] e]. csimpl in *.
  by rewrite IH.
Qed.

Lemma adjust_refs_frame m refs :
  blank_ref <$> (adjust_refs m refs).1 = blank_ref <$> refs.
Proof.
  induction refs as [|r rest IH]; [done|].
  csimpl. destruct (m !! ref_activity_id r) as [v|]; [|done].
  destruct (adjust_refs m rest) as [rest' e]. csimpl in *.
  by rewrite IH.
Qed.

Lemma adjust_participants_frame m ps :
  blank_participant <$> (adjust_participants m ps).1 = blank_participant <$> ps.
Proof.
  induction ps as [|p rest IH]; [done|].
  csimpl. destruct (activities p) as [acts|] eqn:Ep.
  - pose proof (adjust_refs_frame m acts) as Hacts.
    destruct (adjust_refs m acts) as [acts' [e|]]; csimpl in *.
    + f_equal. unfold blank_participant. csimpl.
      by rewrite Ep, Hacts.
    + destruct (adjust_participants m rest) as [rest' e]. csimpl in *.
      rewrite IH. f_equal. unfold blank_participant. csimpl.
      by rewrite Ep, Hacts.
  - destruct (adjust_participants m rest) as [rest' e]. csimpl in *.
    by rewrite IH.
Qed.

(** A participant without ['activities'] is not written to. *)
Lemma adjust_participants_skips m ps :
  Forall2 (fun p p' => if activities p is None then p' = p else True)
    ps (adjust_participants m ps).1.
Proof.
  induction ps as [|p rest IH]; [constructor|].
  csimpl. destruct (activities p) as [acts|] eqn:Ep.
  - destruct (adjust_refs m acts) as [acts' [e|]]; csimpl.
    + constructor; [by rewrite Ep|]. apply Forall_Forall2_diag, Forall_forall.
      intros q _. by destruct (activities q).
    + destruct (adjust_participants m rest) as [rest' e]. csimpl in *.
      constructor; [by rewrite Ep|done].
  - destruct (adjust_participants m rest) as [rest' e]. csimpl in *.
    constructor; [by rewrite Ep|done].
Qed.

Lemma adjust_ids_frame d :
  without_activity_ids (adjust d).1 = without_activity_ids d.
Proof.
  unfold adjust_ids, definitions_pass.
  pose proof (adjust_definitions_frame (event_activities (event d)) ∅ None) as H1.
  destruct (adjust_definitions _ _ _ _ _ _ _) as [[acts' m] e1]. simpl in H1.
  assert (∀ d1, definitions d1 = acts' → event_rest (event d1) = event_rest (event d) →
                attrs d1 = attrs d → doc_rest d1 = doc_rest d →
                without_activity_ids d1 = without_activity_ids d) as Hd1.
  { intros d1 E1 E2 E3 E4. unfold without_activity_ids.
    by rewrite E1, E2, E3, E4, H1. }
  destruct e1 as [e|]; [by apply Hd1|].
  cbn [set_event_activities attrs participants].
  pose proof (adjust_participants_frame m (participants (attrs d))) as H2.
  destruct (adjust_participants m _) as [ps' e2]. simpl in H2.
  destruct e2 as [e|].
  { simpl. rewrite <- (Hd1 (set_event_activities acts' d)) by done.
    unfold without_activity_ids. simpl. by rewrite H2. }
  cbn [set_participants attrs categories].
  pose proof (adjust_refs_frame m (categories (attrs d))) as H3.
  destruct (adjust_refs m _) as [cs' e3]. simpl in *.
  rewrite <- (Hd1 (set_event_activities acts' d)) by done.
  unfold without_activity_ids. simpl. by rewrite H2, H3.
Qed.

(** C10. [adjust_ids] writes to activity-id fields only, whether it
    returns or raises: with the activity-id of every definition, of
    every participant activity and of every category blanked, the
    document after the call is the document before it; in particular
    names and every other key are as they were, no list changes
    length, and a participant without ['activities'] is the same
    dictionary as before. *)
Theorem adjust_ids_writes_activity_ids_only d :
  without_activity_ids (adjust d).1 = without_activity_ids d
  ∧ name <$> definitions (adjust d).1 = name <$> definitions d
  ∧ Forall2 (fun p p' => if activities p is None then p' = p else True)
      (participants (attrs d)) (participants (attrs (adjust d).1)).
Proof.
  split; [apply adjust_ids_frame|]. split.
  - pose proof (adjust_ids_frame d) as H.
    apply (f_equal (fun x => name <$> definitions x)) in H.
    unfold without_activity_ids, definitions in H. simpl in H.
    rewrite <- !list_fmap_compose in H. exact H.
  - unfold adjust_ids.
    destruct (first_pass d) as [[acts' m] [e1|]]; simpl.
    { apply Forall_Forall2_diag, Forall_forall. intros q _. by destruct (activities q). }
    pose proof (adjust_participants_skips m (participants (attrs d))) as H2.
    destruct (adjust_participants m _) as [ps' [e|]]; simpl in *; [done|].
    by destruct (adjust_refs m _).
Qed.

End AdjustIdsProperties.

(** ** The properties on the sample documents *)

Lemma scenario_names_fixed : all_names_fixed scenario.
Proof. repeat constructor. Defined.

Lemma scenario_one_definition_per_name : one_definition_per_name scenario.
Proof.
  intros nm H. unfold fixed_names in H.
  repeat (apply elem_of_cons in H as [->|H]; [reflexivity|]).
  by apply elem_of_nil in H.
Defined.

Lemma scenario_references_resolve : all_references_resolve scenario.
Proof. repeat constructor. Defined.

Lemma adjust_ids_referential_integrity_witness :
  ∃ d',
    adjust_ids "N1" "N2" "N3" "N4" scenario = (d', None)
    ∧ Forall2 (fun a a' => name a' = name a
                           ∧ name_to_new_id "N1" "N2" "N3" "N4" (name a) = Some (activity_id a'))
        (definitions scenario) (definitions d')
    ∧ Forall2 (fun r r' =>
                 ∃ a, a ∈ definitions scenario
                      ∧ activity_id a = ref_activity_id r
                      ∧ defining (ref_activity_id r) (definitions scenario) = Some a
                      ∧ name_to_new_id "N1" "N2" "N3" "N4" (name a) = Some (ref_activity_id r'))
        (references scenario) (references d').
Proof.
  apply (adjust_ids_referential_integrity "N1" "N2" "N3" "N4" scenario).
  - exact scenario_names_fixed.
  - exact scenario_one_definition_per_name.
  - exact scenario_references_resolve.
Defined.

(** C2. A definition named "Judo" that follows the definition named
    "Kata": the call returns, and the "Judo" definition carries the
    identifier of "Kata". *)
Theorem unknown_name_takes_previous_identifier :
  adjust_ids "N1" "N2" "N3" "N4" with_unknown_name
  = (small_document [mkDef "N1" "Kata" []; mkDef "N1" "Judo" []] [], None).
Proof. vm_compute. reflexivity. Qed.

Lemma dangling_category_dangles : some_reference_dangles with_dangling_category.
Proof.
  unfold some_reference_dangles. apply Exists_exists.
  exists (mkRef "Z" []). split.
  - unfold references, with_dangling_category. simpl. repeat constructor.
  - unfold original_ids. simpl. intros H.
    repeat (apply elem_of_cons in H as [H|H]; [discriminate H|]).
    by apply elem_of_nil in H.
Defined.

(** C3 as the specification words it fails on the scenario with a
    category of an undefined activity: the call raises, and the
    definitions and the earlier category have been rewritten. *)
Lemma dangling_reference_mutates :
  ¬ fails_without_mutation "N1" "N2" "N3" "N4" with_dangling_category.
Proof.
  intros H. destruct (H dangling_category_dangles) as [e He].
  rewrite dangling_category_adjusted in He. discriminate He.
Qed.

Lemma adjust_ids_dangling_reference_witness :
  ∃ d' e,
    adjust_ids "N1" "N2" "N3" "N4" with_dangling_category = (d', Some e)
    ∧ ∀ acts' m,
        definitions_pass "N1" "N2" "N3" "N4" with_dangling_category = (acts', m, None) →
        ∃ pre r post,
          references with_dangling_category = pre ++ r :: post
          ∧ Forall (fun q => ref_activity_id q ∈ original_ids with_dangling_category) pre
          ∧ (ref_activity_id r ∉ original_ids with_dangling_category)
          ∧ e = KeyError (ref_activity_id r)
          ∧ definitions d' = acts'
          ∧ references d' = (rewrite_ref m <$> pre) ++ r :: post.
Proof.
  apply (adjust_ids_dangling_reference "N1" "N2" "N3" "N4" with_dangling_category).
  exact dangling_category_dangles.
Defined.

(** C9 as worded fails on two "Kata" definitions followed by a "Kumite"
    definition with the original identifier of the first: the map sends
    that identifier to the identifier of "Kumite". *)
Lemma duplicate_names_map_overwritten :
  ¬ duplicates_share_new_id "N1" "N2" "N3" "N4" with_duplicate_names.
Proof.
  intros H.
  destruct (H 0 1 (mkDef "A" "Kata" []) (mkDef "B" "Kata" []))
    as (d' & acts' & m & w & _ & Hp & Hw & _ & _ & Hma & _); try done.
  vm_compute in Hw. injection Hw as <-. simpl in Hma.
  assert (m !! "A" = Some "N2") as Hm; [|rewrite Hm in Hma; discriminate Hma].
  revert Hp. unfold definitions_pass, with_duplicate_names. simpl.
  intros [= _ <-]. done.
Qed.

Lemma duplicate_names_get_one_new_id_witness :
  ∃ d' acts' m w,
    adjust_ids "N1" "N2" "N3" "N4" with_duplicate_names = (d', None)
    ∧ definitions_pass "N1" "N2" "N3" "N4" with_duplicate_names = (acts', m, None)
    ∧ name_to_new_id "N1" "N2" "N3" "N4" "Kata" = Some w
    ∧ activity_id <$> definitions d' !! 0 = Some w
    ∧ activity_id <$> definitions d' !! 1 = Some w
    ∧ ((∀ k c, 0 < k → definitions with_duplicate_names !! k = Some c →
               activity_id c = "A" → name c = "Kata") →
       m !! "A" = Some w)
    ∧ ((∀ k c, 1 < k → definitions with_duplicate_names !! k = Some c →
               activity_id c = "B" → name c = "Kata") →
       m !! "B" = Some w).
Proof.
  apply (duplicate_names_get_one_new_id "N1" "N2" "N3" "N4" with_duplicate_names
           0 1 (mkDef "A" "Kata" []) (mkDef "B" "Kata" [])).
  - repeat constructor.
  - constructor.
  - discriminate.
  - reflexivity.
  - reflexivity.
  - reflexivity.
Defined.

(** ** The wait loop *)

Lemma ceil_div_spec a b :
  (0 < b)%Z → ((ceil_div a b - 1) * b < a ≤ ceil_div a b * b)%Z.
Proof.
  intros Hb. unfold ceil_div.
  pose proof (Z.div_mod (- a) b ltac:(lia)) as Hdm.
  pose proof (Z.mod_pos_bound (- a) b Hb) as Hm.
  nia.
Qed.

Lemma count_polls_head k interval : count_actions is_head (polls k interval) = k.
Proof.
  unfold count_actions, polls. induction k as [|k IH]; [done|].
  simpl. by rewrite IH.
Qed.

Lemma count_polls_put k interval : count_actions is_put (polls k interval) = 0.
Proof.
  unfold count_actions, polls. induction k as [|k IH]; [done|].
  simpl. by rewrite IH.
Qed.

Lemma count_actions_app p tr1 tr2 :
  count_actions p (tr1 ++ tr2) = count_actions p tr1 + count_actions p tr2.
Proof. unfold count_actions. by rewrite List.filter_app, length_app. Qed.

Section WaitThenPublishProperties.

Variables max_wait interval : Z.
Variable head_object : nat → head_response.
Variable put_object : option exn.

Local Abbreviation loop := (wait_loop max_wait interval head_object).
Local Abbreviation publish := (wait_then_publish max_wait interval head_object put_object).

(** [k] checks answered "not found", each made before the deadline, take
    [k] iterations and leave the loop where it would be after [k]
    sleeps. *)
Lemma wait_loop_polls k : ∀ fuel checks t,
  (0 ≤ interval)%Z →
  (∀ j, j < k → reports_not_found head_object (checks + j)) →
  (∀ j, j < k → (t + Z.of_nat j * interval < max_wait)%Z) →
  loop (k + fuel) checks t
  = after (polls k interval) (loop fuel (checks + k) (t + Z.of_nat k * interval)%Z).
Proof.
  induction k as [|k IH]; intros fuel checks t Hi Hnf Hlt.
  - replace (checks + 0) with checks by lia.
    replace (t + Z.of_nat 0 * interval)%Z with t by lia.
    change (0 + fuel) with fuel.
    by destruct (loop fuel checks t) as [[tr x]|].
  - change (S k + fuel) with (S (k + fuel)). simpl.
    pose proof (Hlt 0 ltac:(lia)) as H0.
    destruct (Hnf 0 ltac:(lia)) as (code & Hc & Hcode).
    replace (checks + 0) with checks in Hc by lia.
    replace (t <? max_wait)%Z with true by (symmetry; apply Z.ltb_lt; lia).
    rewrite Hc, Hcode.
    replace (interval <? 0)%Z with false by (symmetry; apply Z.ltb_ge; lia).
    rewrite IH; [|done| |].
    + replace (S checks + k) with (checks + S k) by lia.
      replace (t + interval + Z.of_nat k * interval)%Z
        with (t + Z.of_nat (S k) * interval)%Z by lia.
      by destruct (loop fuel _ _) as [[tr x]|].
    + intros j Hj. replace (S checks + j) with (checks + S j) by lia.
      apply Hnf. lia.
    + intros j Hj. specialize (Hlt (S j) ltac:(lia)). lia.
Qed.

(** With a positive interval the loop ends, given one iteration more
    than the sleeps that fit before the deadline. *)
Lemma wait_loop_terminates fuel : ∀ checks t,
  (0 < interval)%Z → (max_wait - t ≤ Z.of_nat fuel * interval)%Z →
  is_Some (loop (S fuel) checks t).
Proof.
  induction fuel as [|fuel IH]; intros checks t Hi Hle.
  - simpl. replace (t <? max_wait)%Z with false by (symmetry; apply Z.ltb_ge; lia). eauto.
  - destruct (IH (S checks) (t + interval)%Z Hi ltac:(lia)) as [[tr x] Hrec].
    remember (S fuel) as fuel' eqn:E. cbn [wait_loop]. rewrite Hrec.
    destruct (t <? max_wait)%Z; [|eauto].
    destruct (head_object checks) as [|code|what]; [eauto| |eauto].
    destruct (is_not_found code); [|eauto].
    destruct (interval <? 0)%Z; eauto.
Qed.

Lemma before_deadline (j k : Z) :
  (0 ≤ interval)%Z → (j ≤ k)%Z → (k * interval < max_wait)%Z →
  (0 + j * interval < max_wait)%Z.
Proof.
  intros Hi Hjk Hk.
  pose proof (Z.mul_le_mono_nonneg_r j k interval Hi Hjk). lia.
Qed.

(** C5. For every [k] with [k * interval < max_wait] (the interval being
    a duration, not negative): when the store answers "not found" to the
    first [k] existence checks and "found" to the next one, the script
    makes exactly [k + 1] existence checks, a sleep after each of the
    first [k], and then exactly one [put_object] call. *)
Theorem found_after_k_polls k fuel body :
  (0 ≤ interval)%Z → (Z.of_nat k * interval < max_wait)%Z →
  (∀ j, j < k → reports_not_found head_object j) →
  head_object k = HeadFound →
  k < fuel →
  ∃ tr,
    publish fuel body = Some (tr, published put_object)
    ∧ tr = polls k interval ++ [HeadObject; PutObject body]
    ∧ count_actions is_head tr = k + 1
    ∧ count_actions is_put tr = 1.
Proof.
  intros Hi Hk Hnf Hfound Hfuel.
  exists (polls k interval ++ [HeadObject; PutObject body]).
  split; [|split; [done|]].
  - unfold wait_then_publish.
    replace fuel with (k + S (fuel - S k)) by lia.
    rewrite wait_loop_polls;
      [|done|done|intros j Hj; apply (before_deadline _ (Z.of_nat k)); [done|lia|done]].
    simpl. replace (0 + Z.of_nat k * interval <? max_wait)%Z with true
      by (symmetry; apply Z.ltb_lt; lia).
    rewrite Hfound. simpl. by rewrite <- app_assoc.
  - rewrite !count_actions_app, count_polls_head, count_polls_put.
    unfold count_actions. simpl. lia.
Qed.

(** C6. With a positive interval, when every existence check is answered
    "not found" the script makes exactly [ceil (max_wait / interval)]
    existence checks, leaves the loop through its [else] clause without
    an exception, and then makes exactly one [put_object] call. *)
Theorem never_found_times_out fuel body :
  (0 < interval)%Z →
  (∀ n, reports_not_found head_object n) →
  Z.to_nat (ceil_div max_wait interval) < fuel →
  ∃ tr,
    loop fuel 0 0%Z = Some (polls (Z.to_nat (ceil_div max_wait interval)) interval, TimedOut)
    ∧ publish fuel body = Some (tr, published put_object)
    ∧ tr = polls (Z.to_nat (ceil_div max_wait interval)) interval ++ [PutObject body]
    ∧ count_actions is_head tr = Z.to_nat (ceil_div max_wait interval)
    ∧ count_actions is_put tr = 1.
Proof.
  intros Hi Hnf Hfuel.
  pose proof (ceil_div_spec max_wait interval Hi) as Hq.
  set (n := Z.to_nat (ceil_div max_wait interval)) in *.
  assert (loop fuel 0 0%Z = Some (polls n interval, TimedOut)) as Hloop.
  { replace fuel with (n + S (fuel - S n)) by lia.
    rewrite wait_loop_polls; [|lia|done|].
    2:{ intros j Hj.
        apply (before_deadline _ (ceil_div max_wait interval - 1)); lia. }
    simpl. replace (0 + Z.of_nat n * interval <? max_wait)%Z with false.
    2:{ symmetry. apply Z.ltb_ge.
        destruct (Z.le_gt_cases 0 (ceil_div max_wait interval)) as [Hq0|Hq0].
        - subst n. rewrite Z2Nat.id by done. lia.
        - subst n. rewrite Z2Nat.nonpos by lia. simpl.
          pose proof (Z.mul_le_mono_nonneg_r (ceil_div max_wait interval) 0 interval
                        ltac:(lia) ltac:(lia)). lia. }
    simpl. by rewrite app_nil_r. }
  exists (polls n interval ++ [PutObject body]).
  split; [done|]. split; [|split; [done|]].
  - unfold wait_then_publish. by rewrite Hloop.
  - rewrite !count_actions_app, count_polls_head, count_polls_put.
    unfold count_actions. simpl. lia.
Qed.

(** C7. When the store answers "not found" to the first [k] existence
    checks and the next one, made before the deadline, fails with a
    [ClientError] whose code is neither 404 nor NoSuchKey, that error
    leaves the loop and the script: [k + 1] existence checks have been
    made, none follows, and [put_object] is not called. *)
Theorem other_error_aborts k fuel body code :
  (0 ≤ interval)%Z → (Z.of_nat k * interval < max_wait)%Z →
  (∀ j, j < k → reports_not_found head_object j) →
  head_object k = HeadClientError code → is_not_found code = false →
  k < fuel →
  ∃ tr,
    publish fuel body = Some (tr, Uncaught (ClientError code))
    ∧ tr = polls k interval ++ [HeadObject]
    ∧ count_actions is_head tr = k + 1
    ∧ count_actions is_put tr = 0.
Proof.
  intros Hi Hk Hnf Herr Hcode Hfuel.
  exists (polls k interval ++ [HeadObject]).
  split; [|split; [done|]].
  - unfold wait_then_publish.
    replace fuel with (k + S (fuel - S k)) by lia.
    rewrite wait_loop_polls;
      [|done|done|intros j Hj; apply (before_deadline _ (Z.of_nat k)); [done|lia|done]].
    simpl. replace (0 + Z.of_nat k * interval <? max_wait)%Z with true
      by (symmetry; apply Z.ltb_lt; lia).
    by rewrite Herr, Hcode.
  - rewrite !count_actions_app, count_polls_head, count_polls_put.
    unfold count_actions. simpl. lia.
Qed.

(** An exception of the existence check that is not a [ClientError]
    passes through the [except] clause of line 153 in the same way. *)
Lemma other_exception_aborts k fuel body what :
  (0 ≤ interval)%Z → (Z.of_nat k * interval < max_wait)%Z →
  (∀ j, j < k → reports_not_found head_object j) →
  head_object k = HeadOtherError what →
  k < fuel →
  publish fuel body = Some (polls k interval ++ [HeadObject], Uncaught (OtherException what)).
Proof.
  intros Hi Hk Hnf Herr Hfuel. unfold wait_then_publish.
  replace fuel with (k + S (fuel - S k)) by lia.
  rewrite wait_loop_polls;
      [|done|done|intros j Hj; apply (before_deadline _ (Z.of_nat k)); [done|lia|done]].
  simpl. replace (0 + Z.of_nat k * interval <? max_wait)%Z with true
    by (symmetry; apply Z.ltb_lt; lia).
  by rewrite Herr.
Qed.

End WaitThenPublishProperties.

Lemma found_after_k_polls_witness :
  ∃ tr,
    wait_then_publish 300 10 found_at_third_check None 31 scenario
    = Some (tr, published None)
    ∧ tr = polls 2 10 ++ [HeadObject; PutObject scenario]
    ∧ count_actions is_head tr = 2 + 1
    ∧ count_actions is_put tr = 1.
Proof.
  apply (found_after_k_polls 300 10 found_at_third_check None 2 31 scenario).
  - lia.
  - simpl. lia.
  - intros j Hj. exists "404".
    destruct j as [|[|j]]; [split; reflexivity|split; reflexivity|lia].
  - reflexivity.
  - lia.
Defined.

Lemma never_found_times_out_witness :
  ∃ tr,
    wait_loop 300 10 never_found 31 0 0%Z
    = Some (polls (Z.to_nat (ceil_div 300 10)) 10, TimedOut)
    ∧ wait_then_publish 300 10 never_found None 31 scenario
      = Some (tr, published None)
    ∧ tr = polls (Z.to_nat (ceil_div 300 10)) 10 ++ [PutObject scenario]
    ∧ count_actions is_head tr = Z.to_nat (ceil_div 300 10)
    ∧ count_actions is_put tr = 1.
Proof.
  apply (never_found_times_out 300 10 never_found None 31 scenario).
  - lia.
  - intros n. exists "NoSuchKey". split; reflexivity.
  - vm_compute. lia.
Defined.

Example never_found_makes_30_checks :
  ∃ tr, wait_then_publish 300 10 never_found None 31 scenario = Some (tr, Completed)
        ∧ count_actions is_head tr = 30 ∧ count_actions is_put tr = 1.
Proof. eexists. split; [vm_compute; reflexivity|]. split; reflexivity. Qed.

Lemma other_error_aborts_witness :
  ∃ tr,
    wait_then_publish 300 10 access_denied_at_second_check None 31 scenario
    = Some (tr, Uncaught (ClientError "AccessDenied"))
    ∧ tr = polls 1 10 ++ [HeadObject]
    ∧ count_actions is_head tr = 1 + 1
    ∧ count_actions is_put tr = 0.
Proof.
  apply (other_error_aborts 300 10 access_denied_at_second_check None 1 31 scenario
           "AccessDenied").
  - lia.
  - simpl. lia.
  - intros j Hj. exists "404". destruct j as [|j]; [split; reflexivity|lia].
  - reflexivity.
  - reflexivity.
  - lia.
Defined.

(** ** The script *)


(** The script always ends: its loop makes at most 30 sleeps. *)
Lemma run_total w : is_Some (run w).
Proof.
  unfold run, try_block. destruct (post_ok w); [|eauto].
  destruct (adjust_ids _ _ _ _ _) as [d' [e|]]; [eauto|].
  unfold wait_then_publish.
  destruct (wait_loop_terminates 300 10 (s3_head_object w) 30 0 0%Z) as [[tr x] Hx];
    [lia|simpl; lia|].
  unfold max_wait_seconds, wait_interval_seconds. rewrite Hx. destruct x; eauto.
Qed.




(** The whole run in the calm world. *)
Example calm_run :
  run calm_world =
  Some ([ Uuid4 "e0"; Now "14/09-30"; Uuid4 "r1"; Uuid4 "i2";
          Uuid4 "k3"; Uuid4 "k4"; Uuid4 "k5"; Uuid4 "k6";
          Post (data calm_world); LoadSample; Makedirs "./tmp";
          WriteFile "./tmp/14-09-30.old.json" (sample_data calm_world);
          WriteFile "./tmp/14-09-30.new.json"
            (adjust_ids "#k3" "#k4" "#k5" "#k6" (sample_data calm_world)).1;
          HeadObject; Sleep 10; HeadObject; Sleep 10; HeadObject;
          PutObject (adjust_ids "#k3" "#k4" "#k5" "#k6" (sample_data calm_world)).1 ],
        Completed).
Proof. vm_compute. reflexivity. Qed.

Example calm_run_document :
  (adjust_ids "#k3" "#k4" "#k5" "#k6" (sample_data calm_world)).1 =
  {| event := {| event_activities :=
                   [ mkDef "#k3" "Kata" []; mkDef "#k4" "Kumite" [];
                     mkDef "#k5" "Team Kata" []; mkDef "#k6" "Coach" [] ];
                 event_rest := [("name", JStr "Template")] |};
     attrs := {| participants :=
                   [ mkParticipant (Some [mkRef "#k4" []]) [("first-name", JStr "Aiko")];
                     mkParticipant None [("first-name", JStr "Ben")] ];
                 categories := [ mkRef "#k3" [("name", JStr "U12")] ];
                 attrs_rest := [] |};
     doc_rest := [("id", JStr "#e0")] |}.
Proof. vm_compute. reflexivity. Qed.

(** ** The order of iteration *)

(** A loop whose body replaces the element at the visited position by a
    function of that element rewrites exactly the visited positions. *)
Lemma for_indices_elementwise {A : Type} (visit : nat → list A → list A * option exn)
    (f : A → A) (ok : nat → A → Prop) :
  (∀ i l x, l !! i = Some x → ok i x → visit i l = (<[i := f x]> l, None)) →
  (∀ i l, l !! i = None → visit i l = (l, None)) →
  ∀ order l, NoDup order →
    (∀ i x, i ∈ order → l !! i = Some x → ok i x) →
    ∃ l', for_indices visit order l = (l', None)
          ∧ ∀ j, l' !! j = if decide (j ∈ order) then f <$> l !! j else l !! j.
Proof.
  intros Hsome Hnone. induction order as [|i order IH]; intros l Hnd Hok.
  - exists l. split; [done|]. intros j.
    destruct (decide (j ∈ [])) as [Hj|_]; [by apply elem_of_nil in Hj|done].
  - apply NoDup_cons in Hnd as [Hi Hnd]. simpl.
    destruct (l !! i) as [x|] eqn:E.
    + rewrite (Hsome _ _ _ E (Hok _ _ ltac:(left) E)).
      destruct (IH (<[i := f x]> l) Hnd) as (l' & -> & Hl').
      { intros i' x' Hi' Hx'. apply (Hok i' x'); [by right|].
        rewrite list_lookup_insert_ne in Hx'; [done|]. intros ->. done. }
      exists l'. split; [done|]. intros j. rewrite Hl'.
      destruct (decide (j = i)) as [->|Hne].
      * destruct (decide (i ∈ order)) as [?|_]; [done|].
        destruct (decide (i ∈ i :: order)) as [_|Hn]; [|exfalso; apply Hn; by left].
        rewrite list_lookup_insert_eq by (by eapply lookup_lt_Some). by rewrite E.
      * rewrite list_lookup_insert_ne by done.
        destruct (decide (j ∈ order)) as [Hj|Hj].
        -- destruct (decide (j ∈ i :: order)) as [_|Hn]; [done|].
           exfalso. apply Hn. by right.
        -- destruct (decide (j ∈ i :: order)) as [Hn|_]; [|done].
           apply elem_of_cons in Hn as [?|?]; done.
    + rewrite (Hnone _ _ E).
      destruct (IH l Hnd) as (l' & -> & Hl').
      { intros i' x' Hi' Hx'. apply (Hok i' x'); [by right|done]. }
      exists l'. split; [done|]. intros j. rewrite Hl'.
      destruct (decide (j = i)) as [->|Hne].
      * destruct (decide (i ∈ order)) as [?|_]; [done|].
        destruct (decide (i ∈ i :: order)) as [_|Hn]; [|exfalso; apply Hn; by left].
        by rewrite E.
      * destruct (decide (j ∈ order)) as [Hj|Hj].
        -- destruct (decide (j ∈ i :: order)) as [_|Hn]; [done|].
           exfalso. apply Hn. by right.
        -- destruct (decide (j ∈ i :: order)) as [Hn|_]; [|done].
           apply elem_of_cons in Hn as [?|?]; done.
Qed.

(** Visiting every position once, in any order, maps the function over
    the list. *)
Lemma for_indices_permutation {A : Type} (visit : nat → list A → list A * option exn)
    (f : A → A) (ok : nat → A → Prop) order l :
  (∀ i l x, l !! i = Some x → ok i x → visit i l = (<[i := f x]> l, None)) →
  (∀ i l, l !! i = None → visit i l = (l, None)) →
  order ≡ₚ seq 0 (length l) →
  (∀ i x, l !! i = Some x → ok i x) →
  for_indices visit order l = (f <$> l, None).
Proof.
  intros Hsome Hnone Hperm Hok.
  destruct (for_indices_elementwise visit f ok Hsome Hnone order l) as (l' & -> & Hl').
  { rewrite Hperm. apply NoDup_seq. }
  { intros i x _. apply Hok. }
  f_equal. apply list_eq. intros j. rewrite Hl', list_lookup_fmap.
  destruct (decide (j ∈ order)) as [_|Hj]; [done|].
  rewrite Hperm, elem_of_seq in Hj.
  rewrite (lookup_ge_None_2 l j) by lia. done.
Qed.

Section OrderOfIteration.

Variables kata_id kumite_id team_id coach_id : string.

Local Abbreviation new_id := (name_to_new_id kata_id kumite_id team_id coach_id).
Local Abbreviation rewrite_def := (rewrite_definition kata_id kumite_id team_id coach_id).
Local Abbreviation visit_def := (visit_definition kata_id kumite_id team_id coach_id).
Local Abbreviation adjust := (adjust_ids kata_id kumite_id team_id coach_id).
Local Abbreviation adjust_in_order := (adjust_ids_in_order kata_id kumite_id team_id coach_id).

Lemma visit_refs_in_any_order m order refs :
  order ≡ₚ seq 0 (length refs) → Forall (resolved m) refs →
  for_indices (visit_ref m) order refs = (rewrite_ref m <$> refs, None).
Proof.
  intros Hperm Hres.
  apply (for_indices_permutation _ _ (fun _ r => resolved m r)); [| |done|].
  - intros i l r Hr [v Hv]. unfold visit_ref, rewrite_ref. by rewrite Hr, Hv.
  - intros i l Hr. unfold visit_ref. by rewrite Hr.
  - intros i r Hr. rewrite Forall_forall in Hres. apply Hres.
    by eapply list_elem_of_lookup_2.
Qed.

Lemma visit_participants_in_any_order m inner order ps :
  order ≡ₚ seq 0 (length ps) →
  (∀ i, inner i ≡ₚ seq 0 (length (activities_at ps i))) →
  Forall (fun p => Forall (resolved m) (participant_refs p)) ps →
  for_indices (visit_participant m inner) order ps = (rewrite_participant m <$> ps, None).
Proof.
  intros Hperm Hinner Hres.
  apply (for_indices_permutation _ _
           (fun i p => Forall (resolved m) (participant_refs p)
                       ∧ inner i ≡ₚ seq 0 (length (participant_refs p)))); [| |done|].
  - intros i l p Hp [Hr Hi]. unfold visit_participant, rewrite_participant. rewrite Hp.
    unfold participant_refs in *. destruct (activities p) as [acts|]; simpl in *.
    + by rewrite (visit_refs_in_any_order _ _ _ Hi Hr).
    + by rewrite list_insert_id.
  - intros i l Hp. unfold visit_participant. by rewrite Hp.
  - intros i p Hp. split.
    + rewrite Forall_forall in Hres. apply Hres. by eapply list_elem_of_lookup_2.
    + specialize (Hinner i). unfold activities_at in Hinner. by rewrite Hp in Hinner.
Qed.

(** The first loop over definitions with fixed names, in any order
    without repetition: the visited positions are rewritten, and the map
    holds, for each original identifier of a visited definition, the new
    identifier of some visited definition with that original
    identifier. *)
Lemma visit_definitions_elementwise order : ∀ acts m v,
  NoDup order →
  (∀ i a, i ∈ order → acts !! i = Some a → is_fixed_name (name a) = true) →
  ∃ acts' m' v',
    for_indices visit_def order (acts, m, v) = ((acts', m', v'), None)
    ∧ (∀ j, acts' !! j = if decide (j ∈ order) then rewrite_def <$> acts !! j else acts !! j)
    ∧ ∀ x, (m' !! x = m !! x
            ∧ ∀ i a, i ∈ order → acts !! i = Some a → activity_id a ≠ x)
           ∨ (∃ i a, i ∈ order ∧ acts !! i = Some a ∧ activity_id a = x
                     ∧ m' !! x = new_id (name a)).
Proof.
  induction order as [|i order IH]; intros acts m v Hnd Hfix.
  - exists acts, m, v. split; [done|]. split.
    + intros j. destruct (decide (j ∈ [])) as [Hj|_]; [by apply elem_of_nil in Hj|done].
    + intros x. left. split; [done|]. intros i a Hi. by apply elem_of_nil in Hi.
  - apply NoDup_cons in Hnd as [Hi Hnd]. simpl.
    destruct (acts !! i) as [a|] eqn:E.
    + destruct (assign_fixed kata_id kumite_id team_id coach_id _ v (Hfix _ _ ltac:(left) E))
        as [-> [w Hw]].
      rewrite Hw.
      assert (∀ i' a', i' ∈ order →
                <[i:=set_activity_id w a]> acts !! i' = Some a' → acts !! i' = Some a') as Hother.
      { intros i' a' Hi' Ha'. rewrite list_lookup_insert_ne in Ha'; [done|]. by intros ->. }
      destruct (IH (<[i:=set_activity_id w a]> acts) (<[activity_id a:=w]> m) (Some w) Hnd)
        as (acts' & m' & v' & -> & Hacts' & Hm').
      { intros i' a' Hi' Ha'. apply (Hfix i' a'); [by right|by apply Hother]. }
      exists acts', m', v'. split; [done|]. split.
      * intros j. rewrite Hacts'. destruct (decide (j = i)) as [->|Hne].
        -- destruct (decide (i ∈ order)) as [?|_]; [done|].
           destruct (decide (i ∈ i :: order)) as [_|Hn]; [|exfalso; apply Hn; by left].
           rewrite list_lookup_insert_eq by (by eapply lookup_lt_Some).
           rewrite E. simpl. unfold rewrite_definition. by rewrite Hw.
        -- rewrite list_lookup_insert_ne by done.
           destruct (decide (j ∈ order)) as [Hj|Hj].
           ++ destruct (decide (j ∈ i :: order)) as [_|Hn]; [done|].
              exfalso. apply Hn. by right.
           ++ destruct (decide (j ∈ i :: order)) as [Hn|_]; [|done].
              apply elem_of_cons in Hn as [?|?]; done.
      * intros x. destruct (Hm' x) as [[Hx Hnone]|(i' & a' & Hi' & Ha' & Hid & Hx)].
        -- destruct (decide (activity_id a = x)) as [Hax|Hax].
           ++ right. exists i, a. split; [by left|]. split; [done|]. split; [done|].
              rewrite Hx, <- Hax, lookup_insert_eq. by rewrite Hw.
           ++ left. rewrite lookup_insert_ne in Hx by done. split; [done|].
              intros i' a' Hi' Ha'. apply elem_of_cons in Hi' as [->|Hi'].
              ** congruence.
              ** apply (Hnone i' a' Hi'). rewrite list_lookup_insert_ne; [done|].
                 by intros ->.
        -- right. exists i', a'. split; [by right|]. split; [by apply Hother|done].
    + destruct (IH acts m v Hnd) as (acts' & m' & v' & -> & Hacts' & Hm').
      { intros i' a' Hi'. apply Hfix. by right. }
      exists acts', m', v'. split; [done|]. split.
      * intros j. rewrite Hacts'. destruct (decide (j = i)) as [->|Hne].
        -- destruct (decide (i ∈ order)) as [?|_]; [done|].
           destruct (decide (i ∈ i :: order)) as [_|Hn]; [|exfalso; apply Hn; by left].
           by rewrite E.
        -- destruct (decide (j ∈ order)) as [Hj|Hj].
           ++ destruct (decide (j ∈ i :: order)) as [_|Hn]; [done|].
              exfalso. apply Hn. by right.
           ++ destruct (decide (j ∈ i :: order)) as [Hn|_]; [|done].
              apply elem_of_cons in Hn as [?|?]; done.
      * intros x. destruct (Hm' x) as [[Hx Hnone]|(i' & a' & Hi' & Ha' & Hid & Hx)].
        -- left. split; [done|]. intros i' a' Hi' Ha'.
           apply elem_of_cons in Hi' as [->|Hi']; [congruence|by eapply Hnone].
        -- right. exists i', a'. split; [by right|done].
Qed.

Lemma rewritten_definitions acts acts' :
  Forall2 (fun a a' => ∃ w, new_id (name a) = Some w ∧ a' = set_activity_id w a) acts acts' →
  acts' = rewrite_def <$> acts.
Proof.
  induction 1 as [|a a' acts acts' (w & Hw & ->) _ IH]; [done|].
  rewrite fmap_cons, <- IH. unfold rewrite_definition. by rewrite Hw.
Qed.

Lemma rewrite_ref_agree m m' r :
  m !! ref_activity_id r = m' !! ref_activity_id r → rewrite_ref m r = rewrite_ref m' r.
Proof. unfold rewrite_ref. by intros ->. Qed.

Lemma rewrite_participant_agree m m' p :
  Forall (fun r => m !! ref_activity_id r = m' !! ref_activity_id r) (participant_refs p) →
  rewrite_participant m p = rewrite_participant m' p.
Proof.
  unfold rewrite_participant, participant_refs.
  destruct (activities p) as [acts|]; [|done]. simpl. intros H. f_equal.
  apply Forall_fmap_ext_1. eapply Forall_impl; [exact H|].
  intros r. apply rewrite_ref_agree.
Qed.

(** C4, amended. [adjust_ids] is a function of the document and of the
    four identifiers, and for every document whose definitions all have
    a fixed name, whose references all resolve, and in which the
    definitions a reference corresponds to all have the same name, the
    result is the same for every order in which each of its loops
    visits its list: the one of the script, and any two orders among
    themselves. *)
Theorem adjust_ids_order_independent d o :
  all_names_fixed d → references_determine_names d → all_references_resolve d →
  reordering o d →
  adjust_in_order o d = adjust d
  ∧ ∀ o', reordering o' d → adjust_in_order o' d = adjust_in_order o d.
Proof.
  intros Hfix Hdet Hres Hreo.
  assert (∀ o, reordering o d → adjust_in_order o d = adjust d) as Hany;
    [|split; [by apply Hany|intros o' Ho'; by rewrite !Hany]].
  clear o Hreo. intros o (Hod & Hop & Hoa & Hoc).
  destruct (adjust_ids_fixed_resolved kata_id kumite_id team_id coach_id d Hfix Hres)
    as (acts_src & m_src & H1 & Hadj & HF & Hm).
  rewrite Hadj. unfold adjust_ids_in_order.
  unfold all_names_fixed in Hfix. rewrite Forall_forall in Hfix.
  destruct (visit_definitions_elementwise (definitions_order o) (definitions d) ∅ None)
    as (acts' & m' & v' & Hloop & Hacts' & Hm').
  { rewrite Hod. apply NoDup_seq. }
  { intros i a _ Ha. apply Hfix. by eapply list_elem_of_lookup_2. }
  assert (∀ j, j ∈ definitions_order o ∨ definitions d !! j = None) as Hvisited.
  { intros j. destruct (definitions d !! j) eqn:E; [left|by right].
    rewrite Hod. simpl. apply elem_of_seq. apply lookup_lt_Some in E.
    unfold definitions in E. lia. }
  assert (acts' = acts_src) as ->.
  { rewrite (rewritten_definitions _ _ HF). apply list_eq. intros j.
    rewrite Hacts', list_lookup_fmap.
    destruct (decide (j ∈ definitions_order o)) as [_|Hj]; [done|].
    destruct (Hvisited j) as [? | ->]; done. }
  assert (Forall (fun r => m' !! ref_activity_id r = m_src !! ref_activity_id r)
            (references d)) as Hagree.
  { apply Forall_forall. intros r Hr. rewrite Hm.
    destruct (Hm' (ref_activity_id r)) as [[Hx Hnone]|(i & a & Hi & Ha & Hid & Hx)].
    - rewrite Hx, lookup_empty.
      destruct (defining (ref_activity_id r) (definitions d)) as [c|] eqn:Ec; [|done].
      apply defining_spec in Ec as [Hc Hcx].
      apply list_elem_of_lookup in Hc as [j Hj].
      destruct (Hvisited j) as [Hv|Hv]; [|congruence].
      by destruct (Hnone j c Hv Hj).
    - rewrite Hx.
      destruct (defining_is_Some (ref_activity_id r) (definitions d)) as [c Hc].
      { rewrite <- Hid. apply list_elem_of_fmap_2. by eapply list_elem_of_lookup_2. }
      rewrite Hc. simpl. apply defining_spec in Hc as [Hc Hcx].
      rewrite (Hdet r c a Hr); [done|done| |done|done].
      by eapply list_elem_of_lookup_2. }
  assert (Forall (resolved m') (references d)) as Hr.
  { rewrite Forall_forall in Hagree. apply Forall_forall. intros r Hr.
    unfold resolved. rewrite (Hagree r Hr).
    apply (first_pass_resolved _ _ _ _ _ _ _ _ H1).
    unfold all_references_resolve in Hres. rewrite Forall_forall in Hres. by apply Hres. }
  unfold definitions in Hloop. rewrite Hloop.
  unfold references in Hr, Hagree.
  apply Forall_app in Hr as [Hrp Hrc]. apply Forall_app in Hagree as [Hap Hac].
  apply Forall_concat_refs in Hrp. apply Forall_concat_refs in Hap.
  cbn [set_event_activities attrs participants].
  rewrite (visit_participants_in_any_order _ _ _ _ Hop Hoa Hrp).
  match goal with
  | |- context [for_indices (visit_ref m') _ ?l] =>
      change l with (categories (attrs d))
  end.
  rewrite (visit_refs_in_any_order _ _ _ Hoc Hrc).
  unfold rewrite_document, set_categories, set_participants, set_event_activities. simpl.
  do 2 f_equal. f_equal.
  - apply Forall_fmap_ext_1. eapply Forall_impl; [exact Hap|].
    intros p. apply rewrite_participant_agree.
  - apply Forall_fmap_ext_1. eapply Forall_impl; [exact Hac|].
    intros r. apply rewrite_ref_agree.
Qed.

(** *** The order of the script *)

Lemma visit_refs_front_to_back m refs : ∀ pre,
  for_indices (visit_ref m) (seq (length pre) (length refs)) (pre ++ refs)
  = (pre ++ (adjust_refs m refs).1, (adjust_refs m refs).2).
Proof.
  induction refs as [|r refs IH]; intros pre; [done|].
  simpl. unfold visit_ref at 1. rewrite list_lookup_middle by done.
  destruct (m !! ref_activity_id r) as [v|]; [|done].
  rewrite insert_app_r_alt, Nat.sub_diag by done. simpl.
  replace (pre ++ set_ref_activity_id v r :: refs)
    with ((pre ++ [set_ref_activity_id v r]) ++ refs) by (by rewrite <- app_assoc).
  replace (S (length pre)) with (length (pre ++ [set_ref_activity_id v r]))
    by (rewrite length_app; simpl; lia).
  rewrite IH. destruct (adjust_refs m refs) as [refs' e]. simpl.
  by rewrite <- app_assoc.
Qed.

Lemma visit_participants_front_to_back m inner ps : ∀ pre,
  (∀ j p, ps !! j = Some p → inner (length pre + j) = seq 0 (length (participant_refs p))) →
  for_indices (visit_participant m inner) (seq (length pre) (length ps)) (pre ++ ps)
  = (pre ++ (adjust_participants m ps).1, (adjust_participants m ps).2).
Proof.
  induction ps as [|p ps IH]; intros pre Hinner; [done|].
  assert (∀ q, for_indices (visit_participant m inner)
                 (seq (S (length pre)) (length ps)) (pre ++ q :: ps)
               = (pre ++ q :: (adjust_participants m ps).1, (adjust_participants m ps).2))
    as Hrest.
  { intros q. replace (pre ++ q :: ps) with ((pre ++ [q]) ++ ps) by (by rewrite <- app_assoc).
    replace (S (length pre)) with (length (pre ++ [q])) by (rewrite length_app; simpl; lia).
    rewrite IH; [by rewrite <- app_assoc|].
    intros j p' Hj. rewrite length_app. simpl.
    replace (length pre + 1 + j) with (length pre + S j) by lia. by apply Hinner. }
  simpl. unfold visit_participant at 1. rewrite list_lookup_middle by done.
  pose proof (Hinner 0 p eq_refl) as H0. rewrite Nat.add_0_r in H0.
  unfold participant_refs in H0.
  destruct (activities p) as [acts|] eqn:Ep; simpl in H0.
  - rewrite H0. pose proof (visit_refs_front_to_back m acts []) as Hacts.
    simpl in Hacts. rewrite Hacts.
    destruct (adjust_refs m acts) as [acts' [e|]]; simpl.
    + by rewrite insert_app_r_alt, Nat.sub_diag by done.
    + rewrite insert_app_r_alt, Nat.sub_diag by done. simpl. rewrite Hrest.
      by destruct (adjust_participants m ps).
  - rewrite Hrest. by destruct (adjust_participants m ps).
Qed.

Lemma visit_definitions_front_to_back acts : ∀ pre m v,
  ∃ v', for_indices visit_def (seq (length pre) (length acts)) (pre ++ acts, m, v)
        = ((pre ++ (adjust_definitions kata_id kumite_id team_id coach_id acts m v).1.1,
            (adjust_definitions kata_id kumite_id team_id coach_id acts m v).1.2, v'),
           (adjust_definitions kata_id kumite_id team_id coach_id acts m v).2).
Proof.
  induction acts as [|a acts IH]; intros pre m v; [by exists v|].
  simpl. rewrite list_lookup_middle by done.
  destruct (assign_new_activity_id _ _ _ _ _ _) as [w|]; [|by exists v].
  rewrite insert_app_r_alt, Nat.sub_diag by done. simpl.
  replace (pre ++ set_activity_id w a :: acts)
    with ((pre ++ [set_activity_id w a]) ++ acts) by (by rewrite <- app_assoc).
  replace (S (length pre)) with (length (pre ++ [set_activity_id w a]))
    by (rewrite length_app; simpl; lia).
  destruct (IH (pre ++ [set_activity_id w a]) (<[activity_id a:=w]> m) (Some w)) as [v' ->].
  exists v'. destruct (adjust_definitions _ _ _ _ acts _ _) as [[acts' m'] e]. simpl.
  by rewrite <- app_assoc.
Qed.

(** Run front to back, the loops with explicit positions are the loops
    of the script, for every document and every outcome. *)
Lemma adjust_ids_in_document_order d :
  adjust_in_order (document_order d) d = adjust d.
Proof.
  unfold adjust_ids_in_order, adjust_ids, definitions_pass, document_order.
  cbn [definitions_order participants_order activities_order categories_order].
  destruct (visit_definitions_front_to_back (event_activities (event d)) [] ∅ None)
    as [v' Hdefs].
  simpl in Hdefs. rewrite Hdefs.
  destruct (adjust_definitions _ _ _ _ _ _ _) as [[acts' m] [e1|]]; [done|].
  cbn [fst snd set_event_activities attrs participants].
  pose proof (visit_participants_front_to_back m
                (fun i => seq 0 (length (activities_at (participants (attrs d)) i)))
                (participants (attrs d)) []) as Hps.
  simpl in Hps. rewrite Hps.
  2:{ intros j p Hj. unfold activities_at. by rewrite Hj. }
  destruct (adjust_participants m _) as [ps' [e2|]]; [done|].
  cbn [fst snd set_participants attrs categories].
  pose proof (visit_refs_front_to_back m (categories (attrs d)) []) as Hcs.
  simpl in Hcs.
  match goal with
  | |- context [for_indices (visit_ref m) _ ?l] =>
      change l with (categories (attrs d))
  end.
  rewrite Hcs. by destruct (adjust_refs m _).
Qed.

End OrderOfIteration.

Lemma definitions_reversed_reordering d : reordering (definitions_reversed d) d.
Proof.
  unfold reordering, definitions_reversed. simpl.
  split; [symmetry; apply Permutation_rev|]. split; [done|]. split; done.
Defined.

(** C4 as worded fails on two definitions with the same original
    identifier and different names: a category of that identifier gets
    the identifier of "Kumite" when the first loop runs front to back
    and that of "Kata" when it runs back to front. *)
Lemma order_of_definitions_matters :
  ¬ order_independent "N1" "N2" "N3" "N4" with_shared_original_id.
Proof.
  intros H.
  specialize (H _ (definitions_reversed_reordering with_shared_original_id)).
  rewrite shared_original_id_reversed, shared_original_id_in_document_order in H.
  discriminate H.
Qed.

Lemma scenario_references_determine_names : references_determine_names scenario.
Proof.
  intros r a b _ Ha Hb Har Hbr. rewrite <- Hbr in Har. clear Hbr. revert Har.
  unfold definitions, scenario in Ha, Hb. simpl in Ha, Hb.
  repeat (apply elem_of_cons in Ha as [->|Ha]);
    try (by apply elem_of_nil in Ha);
    repeat (apply elem_of_cons in Hb as [->|Hb]);
    try (by apply elem_of_nil in Hb);
    simpl; intros E; first [reflexivity | discriminate E].
Defined.

Lemma adjust_ids_order_independent_witness :
  adjust_ids_in_order "N1" "N2" "N3" "N4" (definitions_reversed scenario) scenario
  = adjust_ids "N1" "N2" "N3" "N4" scenario
  ∧ ∀ o', reordering o' scenario →
          adjust_ids_in_order "N1" "N2" "N3" "N4" o' scenario
          = adjust_ids_in_order "N1" "N2" "N3" "N4" (definitions_reversed scenario) scenario.
Proof.
  apply (adjust_ids_order_independent "N1" "N2" "N3" "N4" scenario
           (definitions_reversed scenario)).
  - exact scenario_names_fixed.
  - exact scenario_references_determine_names.
  - exact scenario_references_resolve.
  - exact (definitions_reversed_reordering scenario).
Defined.

(** ** The script around adjust_ids and the wait loop *)

Lemma adjust_refs_returns m refs refs' :
  adjust_refs m refs = (refs', None) → Forall (resolved m) refs.
Proof.
  revert refs'. induction refs as [|r refs IH]; intros refs'; [constructor|].
  simpl. destruct (m !! ref_activity_id r) as [v|] eqn:E; [|discriminate].
  destruct (adjust_refs m refs) as [rest e] eqn:Er. intros [= _ ->].
  constructor; [by exists v|by eapply IH].
Qed.

Lemma adjust_participants_returns m ps ps' :
  adjust_participants m ps = (ps', None) →
  Forall (fun p => Forall (resolved m) (participant_refs p)) ps.
Proof.
  revert ps'. induction ps as [|p ps IH]; intros ps'; [constructor|].
  simpl. destruct (activities p) as [acts|] eqn:Eact.
  - destruct (adjust_refs m acts) as [acts' [e|]] eqn:Ea; [discriminate|].
    destruct (adjust_participants m ps) as [rest e] eqn:Ep. intros [= _ ->].
    constructor; [|by eapply IH].
    unfold participant_refs. rewrite Eact. by eapply adjust_refs_returns.
  - destruct (adjust_participants m ps) as [rest e] eqn:Ep. intros [= _ ->].
    constructor; [|by eapply IH].
    unfold participant_refs. rewrite Eact. constructor.
Qed.

(** [adjust_ids] returns only when every reference resolves. *)
Lemma adjust_ids_returns k1 k2 k3 k4 d d' :
  adjust_ids k1 k2 k3 k4 d = (d', None) → all_references_resolve d.
Proof.
  unfold adjust_ids.
  destruct (definitions_pass k1 k2 k3 k4 d) as [[acts' m] [e1|]] eqn:H1; [discriminate|].
  simpl. destruct (adjust_participants m _) as [ps' [e2|]] eqn:H2; [discriminate|].
  simpl. destruct (adjust_refs m _) as [cs' e3] eqn:H3. intros [= _ ->].
  apply adjust_participants_returns in H2. apply adjust_refs_returns in H3.
  unfold all_references_resolve, references.
  apply Forall_app. split.
  - apply Forall_concat_refs. eapply Forall_impl; [exact H2|].
    intros p Hp. eapply Forall_impl; [exact Hp|].
    intros r Hr. simpl. by apply (first_pass_resolved _ _ _ _ _ _ _ _ H1).
  - eapply Forall_impl; [exact H3|].
    intros r Hr. simpl. by apply (first_pass_resolved _ _ _ _ _ _ _ _ H1).
Qed.

(** When the sample has a dangling reference the script ends with the
    exception of [adjust_ids] right after saving the original: the
    partly rewritten document is neither saved nor published. *)
Lemma dangling_reference_not_published w :
  post_ok w = true → some_reference_dangles (sample w) →
  ∃ e, run w = Some (allocate w ++ [ Post (data w); LoadSample; Makedirs "./tmp";
                                     WriteFile (old_file_path w) (sample_data w) ],
                     Uncaught e).
Proof.
  intros Hpost Hdang. unfold run, try_block. rewrite Hpost.
  destruct (adjust_ids _ _ _ _ (sample_data w)) as [d' [e|]] eqn:E; [by exists e|].
  exfalso. apply adjust_ids_returns in E.
  unfold some_reference_dangles in Hdang. apply Exists_exists in Hdang as (r & Hr & Hbad).
  unfold all_references_resolve in E. rewrite Forall_forall in E.
  by apply Hbad, (E r).
Qed.

(** When [adjust_ids] returns, the script saves the rewritten document
    and goes on with the wait loop and the publish of that document. *)
Lemma run_after_adjust w modified tr o :
  post_ok w = true →
  adjust_ids (kata_id w) (kumite_id w) (team_id w) (coach_id w) (sample_data w)
  = (modified, None) →
  wait_then_publish 300 10 (s3_head_object w) (s3_put_object w) 31 modified = Some (tr, o) →
  run w = Some (allocate w ++ [ Post (data w); LoadSample; Makedirs "./tmp";
                                WriteFile (old_file_path w) (sample_data w) ]
                  ++ WriteFile (new_file_path w) modified :: tr, o).
Proof.
  intros Hpost Hadj Hwait. unfold run, try_block. rewrite Hpost, Hadj.
  unfold max_wait_seconds, wait_interval_seconds. by rewrite Hwait.
Qed.

(** A failed command ends the script before anything else is done. *)
Lemma failed_post_ends_run w :
  post_ok w = false → run w = Some (allocate w ++ [Post (data w)], Handled RequestException).
Proof. intros Hpost. unfold run, try_block. by rewrite Hpost. Qed.

(** * Further properties of the script *)

(** ** When adjust_ids returns *)

Section AdjustIdsOutcome.

Variables kata_id kumite_id team_id coach_id : string.

Local Abbreviation assign := (assign_new_activity_id kata_id kumite_id team_id coach_id).
Local Abbreviation new_id := (name_to_new_id kata_id kumite_id team_id coach_id).
Local Abbreviation adjust_defs := (adjust_definitions kata_id kumite_id team_id coach_id).
Local Abbreviation first_pass := (definitions_pass kata_id kumite_id team_id coach_id).
Local Abbreviation adjust := (adjust_ids kata_id kumite_id team_id coach_id).

Lemma set_event_activities_same d : set_event_activities (definitions d) d = d.
Proof. by destruct d as [[acts er] a r]. Qed.

(** Once [new_activity_id] is bound it stays bound. *)
Lemma assign_bound nm u : is_Some (assign nm (Some u)).
Proof.
  destruct (is_fixed_name nm) eqn:E.
  - destruct (assign_fixed kata_id kumite_id team_id coach_id nm (Some u) E) as [-> H].
    exact H.
  - rewrite (assign_other _ _ _ _ _ _ E). eauto.
Qed.

Lemma adjust_definitions_bound acts : ∀ m u, (adjust_defs acts m (Some u)).2 = None.
Proof.
  induction acts as [|a rest IH]; intros m u; [done|].
  simpl. destruct (assign_bound (name a) u) as [w ->].
  specialize (IH (<[activity_id a:=w]> m) w).
  by destruct (adjust_defs rest _ _) as [[rest' m'] e].
Qed.

(** The first loop raises exactly when the first definition has a name
    outside the four. *)
Lemma first_pass_completes d : first_name_fixed d → (first_pass d).2 = None.
Proof.
  unfold first_name_fixed, definitions_pass, definitions.
  destruct (event_activities (event d)) as [|a rest]; [done|].
  intros Hfix. simpl.
  destruct (assign_fixed kata_id kumite_id team_id coach_id _ None Hfix) as [-> [w ->]].
  pose proof (adjust_definitions_bound rest (<[activity_id a:=w]> ∅) w) as H.
  by destruct (adjust_defs rest _ _) as [[rest' m'] e].
Qed.

Lemma first_pass_raises d a rest :
  definitions d = a :: rest → is_fixed_name (name a) = false →
  first_pass d = (a :: rest, ∅, Some (UnboundLocalError "new_activity_id")).
Proof.
  unfold definitions_pass, definitions. intros -> Hfix. simpl.
  by rewrite (assign_other _ _ _ _ _ _ Hfix).
Qed.

(** X1. When the first definition has a name outside the four,
    [adjust_ids] raises [UnboundLocalError] at line 87 of its first
    iteration and the document is exactly as it was. *)
Theorem unknown_first_name_raises d a rest :
  definitions d = a :: rest → is_fixed_name (name a) = false →
  adjust d = (d, Some (UnboundLocalError "new_activity_id")).
Proof.
  intros Hd Hfix. unfold adjust_ids. rewrite (first_pass_raises d a rest Hd Hfix).
  simpl. by rewrite <- Hd, set_event_activities_same.
Qed.

(** X2. [adjust_ids] returns exactly for the documents in which the first
    definition, if any, has one of the four fixed names and every
    participant/category reference is the original identifier of some
    definition; the names of the other definitions play no part. *)
Theorem adjust_ids_returns_iff d :
  (∃ d', adjust d = (d', None)) ↔ first_name_fixed d ∧ all_references_resolve d.
Proof.
  split.
  - intros [d' Hd']. split; [|by eapply adjust_ids_returns].
    unfold first_name_fixed. destruct (definitions d) as [|a rest] eqn:Hd; [done|].
    destruct (is_fixed_name (name a)) eqn:Hfix; [done|].
    unfold adjust_ids in Hd'. rewrite (first_pass_raises d a rest Hd Hfix) in Hd'.
    discriminate Hd'.
  - intros [Hfirst Hres]. pose proof (first_pass_completes d Hfirst) as H1.
    destruct (first_pass d) as [[acts' m] e] eqn:E. simpl in H1. subst e.
    exists (rewrite_document acts' m d). by apply adjust_ids_completes.
Qed.

(** *** The identifier carried over from the previous definition *)

Lemma adjust_definitions_carries acts : ∀ m v acts' m' i a b,
  adjust_defs acts m v = (acts', m', None) →
  acts !! i = Some a → acts !! S i = Some b → is_fixed_name (name b) = false →
  ∃ w, activity_id <$> acts' !! i = Some w ∧ activity_id <$> acts' !! S i = Some w.
Proof.
  induction acts as [|a0 rest IH]; intros m v acts' m' i a b Hrun Hi Hsi Hb; [done|].
  simpl in Hrun. destruct (assign (name a0) v) as [w|] eqn:Ew; [|discriminate].
  destruct (adjust_defs rest _ _) as [[rest' m1] e] eqn:Erest.
  injection Hrun as <- <- ->.
  destruct i as [|i].
  - simpl in Hi, Hsi. exists w. split; [done|].
    destruct rest as [|b0 rest0]; [done|]. simpl in Hsi. injection Hsi as ->.
    simpl in Erest. rewrite (assign_other _ _ _ _ _ _ Hb) in Erest.
    destruct (adjust_defs rest0 _ _) as [[rest0' m2] e] eqn:E0.
    by injection Erest as <- _ _.
  - simpl in Hi, Hsi. simpl. by eapply IH.
Qed.

(** X3. In a call that returns, a definition whose name is none of the
    four ends with the same activity-id as the definition just before
    it: the identifier assigned in the previous iteration is still in
    [new_activity_id] when line 87 writes it. *)
Theorem unknown_name_shares_previous_identifier d d' i a b :
  adjust d = (d', None) →
  definitions d !! i = Some a → definitions d !! S i = Some b →
  is_fixed_name (name b) = false →
  ∃ w, activity_id <$> definitions d' !! i = Some w
       ∧ activity_id <$> definitions d' !! S i = Some w.
Proof.
  intros Hadj Hi Hsi Hb. unfold adjust_ids in Hadj.
  destruct (first_pass d) as [[acts' m] [e1|]] eqn:H1; [discriminate|].
  simpl in Hadj. destruct (adjust_participants m _) as [ps' [e2|]]; [discriminate|].
  simpl in Hadj. destruct (adjust_refs m _) as [cs' e3]. injection Hadj as <- ->.
  unfold definitions at 1 2. simpl.
  by eapply adjust_definitions_carries.
Qed.

(** *** Only the four identifiers are written *)

Lemma assign_value nm v w :
  assign nm v = Some w → w ∈ [kata_id; kumite_id; team_id; coach_id] ∨ v = Some w.
Proof.
  unfold assign_new_activity_id.
  destruct (String.eqb nm "Coach"); [intros [= <-]; left; repeat constructor|].
  destruct (String.eqb nm "Team Kata"); [intros [= <-]; left; repeat constructor|].
  destruct (String.eqb nm "Kumite"); [intros [= <-]; left; repeat constructor|].
  destruct (String.eqb nm "Kata"); [intros [= <-]; left; repeat constructor|].
  by right.
Qed.

Lemma adjust_definitions_values acts : ∀ m v acts' m',
  adjust_defs acts m v = (acts', m', None) →
  (∀ u, v = Some u → u ∈ [kata_id; kumite_id; team_id; coach_id]) →
  Forall (fun a' => activity_id a' ∈ [kata_id; kumite_id; team_id; coach_id]) acts'
  ∧ ∀ x y, m' !! x = Some y →
           y ∈ [kata_id; kumite_id; team_id; coach_id] ∨ m !! x = Some y.
Proof.
  induction acts as [|a rest IH]; intros m v acts' m' Hrun Hv.
  - injection Hrun as <- <-. split; [constructor|]. intros x y. by right.
  - simpl in Hrun. destruct (assign (name a) v) as [w|] eqn:Ew; [|discriminate].
    destruct (adjust_defs rest _ _) as [[rest' m1] e] eqn:Erest.
    injection Hrun as <- <- ->.
    assert (w ∈ [kata_id; kumite_id; team_id; coach_id]) as Hw.
    { destruct (assign_value _ _ _ Ew) as [?|?]; [done|by apply Hv]. }
    destruct (IH _ _ _ _ Erest) as [Hacts Hm]; [by intros u [= <-]|].
    split; [by constructor|]. intros x y Hxy.
    destruct (Hm x y Hxy) as [?|Hx]; [by left|].
    destruct (decide (activity_id a = x)) as [Heq|Hne].
    + subst x. rewrite lookup_insert_eq in Hx. injection Hx as <-. by left.
    + rewrite lookup_insert_ne in Hx by done. by right.
Qed.

(** X4. After a call that returns, every activity-id of the document, in
    the definitions, in the participants' activities and in the
    categories, is one of the four module-level identifiers: no
    original identifier is left unless it equals one of them. *)
Theorem adjust_ids_leaves_only_new_identifiers d d' :
  adjust d = (d', None) →
  Forall (fun a' => activity_id a' ∈ [kata_id; kumite_id; team_id; coach_id])
    (definitions d')
  ∧ Forall (fun r' => ref_activity_id r' ∈ [kata_id; kumite_id; team_id; coach_id])
      (references d').
Proof.
  intros Hadj. pose proof (adjust_ids_returns _ _ _ _ _ _ Hadj) as Hres.
  destruct (first_pass d) as [[acts' m] e] eqn:H1.
  assert (e = None) as ->.
  { revert Hadj. unfold adjust_ids. rewrite H1. by destruct e. }
  rewrite (adjust_ids_completes _ _ _ _ _ _ _ H1 Hres) in Hadj. injection Hadj as <-.
  destruct (adjust_definitions_values _ _ _ _ _ H1) as [Hacts Hm]; [by intros u [=]|].
  split; [exact Hacts|].
  rewrite references_rewrite_document. apply Forall_fmap.
  eapply Forall_impl; [exact Hres|]. intros r Hr. simpl in *.
  apply (first_pass_resolved _ _ _ _ _ _ _ _ H1) in Hr as [y Hy].
  unfold rewrite_ref. rewrite Hy. simpl.
  destruct (Hm _ _ Hy) as [?|Hempty]; [done|]. by rewrite lookup_empty in Hempty.
Qed.

(** *** Calling adjust_ids again *)

Lemma adjust_definitions_again acts : ∀ m v acts' m' m2,
  adjust_defs acts m v = (acts', m', None) →
  ∃ m2', adjust_defs acts' m2 v = (acts', m2', None)
         ∧ ∀ x, m2' !! x = if decide (x ∈ activity_id <$> acts') then Some x else m2 !! x.
Proof.
  induction acts as [|a rest IH]; intros m v acts' m' m2 Hrun.
  - injection Hrun as <- <-. exists m2. split; [done|]. intros x.
    destruct (decide (x ∈ activity_id <$> [])) as [Hx|_]; [by apply elem_of_nil in Hx|done].
  - simpl in Hrun. destruct (assign (name a) v) as [w|] eqn:Ew; [|discriminate].
    destruct (adjust_defs rest _ _) as [[rest' m1] e] eqn:Erest.
    injection Hrun as <- <- ->.
    destruct (IH _ _ _ _ (<[w:=w]> m2) Erest) as (m2' & Hagain & Hm2').
    exists m2'. csimpl. rewrite Ew, Hagain. split; [done|].
    intros x. rewrite Hm2'.
    destruct (decide (x ∈ activity_id <$> rest')) as [Hx|Hx].
    + destruct (decide (x ∈ w :: (activity_id <$> rest'))) as [_|Hn]; [done|].
      exfalso. apply Hn. by right.
    + destruct (decide (w = x)) as [Heq|Hne].
      * subst x. rewrite lookup_insert_eq.
        destruct (decide (w ∈ w :: (activity_id <$> rest'))) as [_|Hn]; [done|].
        exfalso. apply Hn. by left.
      * rewrite lookup_insert_ne by done.
        destruct (decide (x ∈ w :: (activity_id <$> rest'))) as [Hin|_]; [|done].
        apply elem_of_cons in Hin as [?|?]; [congruence|done].
Qed.

Lemma adjust_definitions_map_values acts : ∀ m v acts' m',
  adjust_defs acts m v = (acts', m', None) →
  ∀ x y, m' !! x = Some y → y ∈ activity_id <$> acts' ∨ m !! x = Some y.
Proof.
  induction acts as [|a rest IH]; intros m v acts' m' Hrun x y Hxy.
  - injection Hrun as <- <-. by right.
  - simpl in Hrun. destruct (assign (name a) v) as [w|] eqn:Ew; [|discriminate].
    destruct (adjust_defs rest _ _) as [[rest' m1] e] eqn:Erest.
    injection Hrun as <- <- ->. rewrite fmap_cons.
    change (activity_id (set_activity_id w a)) with w.
    destruct (IH _ _ _ _ Erest x y Hxy) as [?|Hx]; [left; by right|].
    destruct (decide (activity_id a = x)) as [Heq|Hne].
    + subst x. rewrite lookup_insert_eq in Hx. injection Hx as <-. left. by left.
    + rewrite lookup_insert_ne in Hx by done. by right.
Qed.

Lemma rewrite_ref_again m m2 r :
  (∃ y, m !! ref_activity_id r = Some y ∧ m2 !! y = Some y) →
  rewrite_ref m2 (rewrite_ref m r) = rewrite_ref m r.
Proof.
  intros (y & Hy & Hyy). unfold rewrite_ref. rewrite Hy. simpl. by rewrite Hyy.
Qed.

Lemma rewrite_refs_again m m2 refs :
  Forall (fun r => ∃ y, m !! ref_activity_id r = Some y ∧ m2 !! y = Some y) refs →
  rewrite_ref m2 <$> (rewrite_ref m <$> refs) = rewrite_ref m <$> refs.
Proof.
  intros H. rewrite <- list_fmap_compose. apply Forall_fmap_ext_1.
  eapply Forall_impl; [exact H|]. intros r Hr. by apply rewrite_ref_again.
Qed.

Lemma rewrite_participant_again m m2 p :
  Forall (fun r => ∃ y, m !! ref_activity_id r = Some y ∧ m2 !! y = Some y)
    (participant_refs p) →
  rewrite_participant m2 (rewrite_participant m p) = rewrite_participant m p.
Proof.
  unfold rewrite_participant, participant_refs.
  destruct (activities p) as [acts|] eqn:Ep; simpl.
  - intros H. unfold set_activities. simpl. by rewrite (rewrite_refs_again _ _ _ H).
  - intros _. by rewrite Ep.
Qed.

(** X5. Calling [adjust_ids] on a document it has returned returns again
    and changes nothing: the definitions get the identifiers they
    already carry, and the second map sends each of those identifiers
    to itself. *)
Theorem adjust_ids_idempotent d d' :
  adjust_ids kata_id kumite_id team_id coach_id d = (d', None) →
  adjust_ids kata_id kumite_id team_id coach_id d' = (d', None).
Proof.
  intros Hadj. pose proof (adjust_ids_returns _ _ _ _ _ _ Hadj) as Hres.
  destruct (first_pass d) as [[acts' m] e] eqn:H1.
  assert (e = None) as ->.
  { revert Hadj. unfold adjust_ids. rewrite H1. by destruct e. }
  rewrite (adjust_ids_completes _ _ _ _ _ _ _ H1 Hres) in Hadj. injection Hadj as <-.
  destruct (adjust_definitions_again _ _ _ _ _ ∅ H1) as (m2 & H2 & Hm2).
  assert (Forall (fun r => ∃ y, m !! ref_activity_id r = Some y ∧ m2 !! y = Some y)
            (references d)) as Hagain.
  { eapply Forall_impl; [exact Hres|]. intros r Hr. simpl in Hr.
    apply (first_pass_resolved _ _ _ _ _ _ _ _ H1) in Hr as [y Hy].
    exists y. split; [done|]. rewrite Hm2.
    destruct (adjust_definitions_map_values _ _ _ _ _ H1 _ _ Hy) as [Hin|Hempty].
    - by destruct (decide (y ∈ activity_id <$> acts')).
    - by rewrite lookup_empty in Hempty. }
  assert (first_pass (rewrite_document acts' m d) = (acts', m2, None)) as H2' by exact H2.
  rewrite (adjust_ids_completes _ _ _ _ _ _ _ H2').
  - unfold references in Hagain. apply Forall_app in Hagain as [Hp Hc].
    apply Forall_concat_refs in Hp.
    unfold rewrite_document. simpl. do 2 f_equal. f_equal.
    + rewrite <- list_fmap_compose. apply Forall_fmap_ext_1.
      eapply Forall_impl; [exact Hp|]. intros p Hp'. by apply rewrite_participant_again.
    + by apply rewrite_refs_again.
  - unfold all_references_resolve. rewrite references_rewrite_document.
    apply Forall_fmap. eapply Forall_impl; [exact Hagain|].
    intros r (y & Hy & Hyy). simpl. unfold rewrite_ref. rewrite Hy. simpl.
    apply (first_pass_resolved _ _ _ _ _ _ _ (set_ref_activity_id y r) H2').
    unfold resolved. simpl. eauto.
Qed.

End AdjustIdsOutcome.

(** ** Bounds of the wait loop *)

Lemma ceil_div_sub a b : (0 < b)%Z → ceil_div (a - b) b = (ceil_div a b - 1)%Z.
Proof.
  intros Hb. unfold ceil_div.
  replace (- (a - b))%Z with (- a + 1 * b)%Z by lia.
  rewrite Z.div_add by lia. lia.
Qed.

Lemma ceil_div_pos a b : (0 < b)%Z → (0 < a)%Z → (1 ≤ ceil_div a b)%Z.
Proof. intros Hb Ha. pose proof (ceil_div_spec a b Hb). nia. Qed.

Lemma count_actions_cons p a tr :
  count_actions p (a :: tr) = (if p a then 1 else 0) + count_actions p tr.
Proof. unfold count_actions. simpl. by destruct (p a). Qed.

Lemma count_zero_not_in p tr a : count_actions p tr = 0 → a ∈ tr → p a = false.
Proof.
  induction tr as [|b tr IH]; intros Hc Ha; [by apply elem_of_nil in Ha|].
  rewrite count_actions_cons in Hc. apply elem_of_cons in Ha as [->|Ha].
  - destruct (p b); [lia|done].
  - apply IH; [lia|done].
Qed.

Section WaitLoopBounds.

Variables max_wait interval : Z.
Variable head_object : nat → head_response.
Variable put_object : option exn.

Local Abbreviation loop := (wait_loop max_wait interval head_object).
Local Abbreviation publish := (wait_then_publish max_wait interval head_object put_object).

(** Whatever the store answers, the loop makes no more checks than
    intervals fit into the time left, sleeps one interval per check at
    most, and never publishes. *)
Lemma wait_loop_bounds fuel : ∀ checks t tr x,
  (0 < interval)%Z → loop fuel checks t = Some (tr, x) →
  (Z.of_nat (count_actions is_head tr) ≤ Z.max 0 (ceil_div (max_wait - t) interval))%Z
  ∧ (0 ≤ slept tr ≤ Z.of_nat (count_actions is_head tr) * interval)%Z
  ∧ count_actions is_put tr = 0.
Proof.
  induction fuel as [|fuel IH]; intros checks t tr x Hi; [discriminate|].
  simpl. destruct (t <? max_wait)%Z eqn:Et.
  2:{ intros [= <- _]. unfold count_actions. simpl. lia. }
  apply Z.ltb_lt in Et.
  pose proof (ceil_div_pos (max_wait - t) interval Hi ltac:(lia)) as Hq.
  destruct (head_object checks) as [|code|what].
  - intros [= <- _]. unfold count_actions. simpl. lia.
  - destruct (is_not_found code).
    2:{ intros [= <- _]. unfold count_actions. simpl. lia. }
    replace (interval <? 0)%Z with false by (symmetry; apply Z.ltb_ge; lia).
    destruct (loop fuel (S checks) (t + interval)%Z) as [[tr' x']|] eqn:E; [|discriminate].
    intros [= <- _]. destruct (IH _ _ _ _ Hi E) as (Hh & Hs & Hp).
    replace (max_wait - (t + interval))%Z with (max_wait - t - interval)%Z in Hh by lia.
    rewrite ceil_div_sub in Hh by done.
    rewrite !count_actions_cons. simpl. rewrite Hp. split; [lia|]. split; [nia|done].
  - intros [= <- _]. unfold count_actions. simpl. lia.
Qed.


End WaitLoopBounds.


(** ** What a run publishes *)

Lemma dict_get_set k v kv : dict_get k (JDict (dict_set k v kv)) = Some v.
Proof.
  unfold dict_get. induction kv as [|[k' v'] kv IH]; simpl.
  - by rewrite String.eqb_refl.
  - destruct (String.eqb k' k) eqn:E; simpl.
    + by rewrite String.eqb_refl.
    + by rewrite E.
Qed.

Lemma dict_get_set_other k k' v kv :
  k' ≠ k → dict_get k' (JDict (dict_set k v kv)) = dict_get k' (JDict kv).
Proof.
  intros Hne. unfold dict_get. induction kv as [|[k0 v0] kv IH]; simpl.
  - by destruct (String.eqb_spec k k').
  - destruct (String.eqb_spec k0 k) as [->|Hk0]; simpl.
    + by destruct (String.eqb_spec k k').
    + destruct (String.eqb k0 k'); [done|exact IH].
Qed.

Lemma adjust_ids_keeps_rest k1 k2 k3 k4 d :
  doc_rest (adjust_ids k1 k2 k3 k4 d).1 = doc_rest d.
Proof.
  pose proof (adjust_ids_frame k1 k2 k3 k4 d) as H.
  by apply (f_equal doc_rest) in H.
Qed.

(** A [put_object] of a run follows a successful command and a call of
    [adjust_ids] that returned, and carries the document of that call. *)
Lemma run_publishes w tr o body :
  run w = Some (tr, o) → PutObject body ∈ tr →
  post_ok w = true
  ∧ adjust_ids (kata_id w) (kumite_id w) (team_id w) (coach_id w) (sample_data w)
    = (body, None).
Proof.
  unfold run. destruct (try_block w) as [[tr' o']|] eqn:Htry; [|discriminate].
  intros [= <- <-] Hin.
  assert (PutObject body ∈ tr') as Hin'.
  { unfold allocate in Hin. simpl in Hin.
    repeat (apply elem_of_cons in Hin as [Hin|Hin]; [discriminate Hin|]). done. }
  clear Hin. revert Htry. unfold try_block.
  destruct (post_ok w).
  2:{ intros [= <- _]. apply elem_of_cons in Hin' as [Hin'|Hin']; [discriminate Hin'|].
      by apply elem_of_nil in Hin'. }
  destruct (adjust_ids _ _ _ _ _) as [modified [e|]].
  { intros [= <- _].
    repeat (apply elem_of_cons in Hin' as [Hin'|Hin']; [discriminate Hin'|]).
    by apply elem_of_nil in Hin'. }
  unfold wait_then_publish.
  destruct (wait_loop _ _ _ _ _ _) as [[tr1 x]|] eqn:Hloop; [|discriminate].
  destruct (wait_loop_bounds max_wait_seconds wait_interval_seconds _ _ _ _ _ _
              (eq_refl : (0 < wait_interval_seconds)%Z) Hloop) as (_ & _ & Hput).
  assert (PutObject body ∉ tr1) as Hnot.
  { intros Hb. by pose proof (count_zero_not_in _ _ _ Hput Hb). }
  assert (∀ l, PutObject body ∈
                 [Post (data w); LoadSample; Makedirs "./tmp";
                  WriteFile (old_file_path w) (sample_data w)]
                 ++ WriteFile (new_file_path w) modified :: l →
               PutObject body ∈ l) as Htail.
  { intros l Hl.
    repeat (apply elem_of_cons in Hl as [Hl|Hl]; [discriminate Hl|]). done. }
  destruct x as [| |e]; intros [= <- _]; apply Htail in Hin'.
  - apply elem_of_app in Hin' as [?|Hin']; [done|].
    apply list_elem_of_singleton in Hin'. by injection Hin' as ->.
  - apply elem_of_app in Hin' as [?|Hin']; [done|].
    apply list_elem_of_singleton in Hin'. by injection Hin' as ->.
  - done.
Qed.

(** X7. The script calls [put_object] only after the command succeeded
    and [adjust_ids] returned, and the body it sends is the document of
    that call: the sample had a first definition with a fixed name and
    no dangling reference, and every activity-id of the published
    document is one of the four fresh identifiers.  A document that
    [adjust_ids] left partly rewritten is never published. *)
Theorem published_document_is_remapped w tr o body :
  run w = Some (tr, o) → PutObject body ∈ tr →
  post_ok w = true
  ∧ adjust_ids (kata_id w) (kumite_id w) (team_id w) (coach_id w) (sample_data w)
    = (body, None)
  ∧ first_name_fixed (sample w)
  ∧ all_references_resolve (sample w)
  ∧ Forall (fun a => activity_id a ∈ [kata_id w; kumite_id w; team_id w; coach_id w])
      (definitions body).
Proof.
  intros Hrun Hin. destruct (run_publishes w tr o body Hrun Hin) as [Hpost Hadj].
  split; [done|]. split; [done|]. split; [|split].
  - change (first_name_fixed (sample_data w)). unfold first_name_fixed.
    destruct (definitions (sample_data w)) as [|a rest] eqn:Hd; [done|].
    destruct (is_fixed_name (name a)) eqn:Hfix; [done|].
    unfold adjust_ids in Hadj.
    rewrite (first_pass_raises _ _ _ _ _ a rest Hd Hfix) in Hadj. discriminate Hadj.
  - exact (adjust_ids_returns _ _ _ _ _ _ Hadj).
  - unfold adjust_ids in Hadj.
    destruct (definitions_pass _ _ _ _ _) as [[acts' m] [e1|]] eqn:H1; [discriminate|].
    simpl in Hadj. destruct (adjust_participants m _) as [ps' [e2|]]; [discriminate|].
    simpl in Hadj. destruct (adjust_refs m _) as [cs' e3]. injection Hadj as <- ->.
    unfold definitions. simpl.
    by destruct (adjust_definitions_values _ _ _ _ _ _ _ _ _ H1) as [Hacts _];
      [intros u [=]|].
Qed.

(** X8. The document a run publishes has as ['id'] the event identifier
    with the sigil, the same value the posted envelope carries as
    ['event-id']: line 116 sets it and [adjust_ids] does not touch it. *)
Theorem published_id_is_event_id w tr o body :
  run w = Some (tr, o) → PutObject body ∈ tr →
  dict_get "id" (JDict (doc_rest body)) = Some (JStr ("#" +:+ event_id w))
  ∧ envelope_event_id (data w) = Some (JStr ("#" +:+ event_id w))
  ∧ Post (data w) ∈ tr.
Proof.
  intros Hrun Hin. destruct (run_publishes w tr o body Hrun Hin) as [Hpost Hadj].
  split; [|split; [done|]].
  - pose proof (adjust_ids_keeps_rest (kata_id w) (kumite_id w) (team_id w) (coach_id w)
                  (sample_data w)) as Hrest.
    rewrite Hadj in Hrest. simpl in Hrest. rewrite Hrest. apply dict_get_set.
  - revert Hrun. unfold run, try_block. rewrite Hpost.
    destruct (adjust_ids _ _ _ _ _) as [modified [e|]]; [discriminate Hadj|].
    destruct (wait_then_publish _ _ _ _ _ _) as [[tr1 o1]|]; [|discriminate].
    intros [= <- _]. unfold allocate. simpl. repeat constructor.
Qed.

(** X9. Every run of the script ends, after at most 30 existence checks
    and at most 300 seconds of sleep, and calls [put_object] at most
    once. *)
Theorem run_ends_within_bounds w :
  ∃ tr o, run w = Some (tr, o)
          ∧ (count_actions is_head tr ≤ 30)%nat
          ∧ (slept tr ≤ 300)%Z
          ∧ (count_actions is_put tr ≤ 1)%nat.
Proof.
  destruct (run_total w) as [[tr o] Hrun]. exists tr, o. split; [done|].
  revert Hrun. unfold run, try_block.
  destruct (post_ok w);
    [|intros [= <- _]; unfold allocate, count_actions; simpl; lia].
  destruct (adjust_ids _ _ _ _ _) as [modified [e|]];
    [intros [= <- _]; unfold allocate, count_actions; simpl; lia|].
  unfold wait_then_publish.
  destruct (wait_loop _ _ _ _ _ _) as [[tr1 x]|] eqn:Hloop; [|discriminate].
  destruct (wait_loop_bounds max_wait_seconds wait_interval_seconds _ _ _ _ _ _
              (eq_refl : (0 < wait_interval_seconds)%Z) Hloop) as (Hh & Hs & Hp).
  change (ceil_div (max_wait_seconds - 0) wait_interval_seconds) with 30%Z in Hh.
  unfold wait_interval_seconds in Hs.
  assert (∀ l1 l2, slept (l1 ++ l2) = (slept l1 + slept l2)%Z) as Happ.
  { clear. induction l1 as [|a l1 IH]; intros l2; [done|].
    simpl. destruct a; rewrite ?IH; lia. }
  assert (∀ l, (count_actions is_head l ≤ 30)%nat → (slept l ≤ 300)%Z →
               (count_actions is_put l ≤ 1)%nat →
               (count_actions is_head
                  (allocate w ++ [Post (data w); LoadSample; Makedirs "./tmp";
                                  WriteFile (old_file_path w) (sample_data w)]
                     ++ WriteFile (new_file_path w) modified :: l) ≤ 30)%nat
               ∧ (slept (allocate w ++ [Post (data w); LoadSample; Makedirs "./tmp";
                                        WriteFile (old_file_path w) (sample_data w)]
                           ++ WriteFile (new_file_path w) modified :: l) ≤ 300)%Z
               ∧ (count_actions is_put
                    (allocate w ++ [Post (data w); LoadSample; Makedirs "./tmp";
                                    WriteFile (old_file_path w) (sample_data w)]
                       ++ WriteFile (new_file_path w) modified :: l) ≤ 1)%nat) as Hwhole.
  { intros l H1 H2 H3. unfold allocate. simpl.
    rewrite !count_actions_cons. simpl. lia. }
  destruct x as [| |e]; intros [= <- _]; apply Hwhole.
  - rewrite count_actions_app. unfold count_actions at 2. simpl. lia.
  - rewrite Happ. simpl. nia.
  - rewrite count_actions_app, Hp. unfold count_actions. simpl. lia.
  - rewrite count_actions_app. unfold count_actions at 2. simpl. lia.
  - rewrite Happ. simpl. nia.
  - rewrite count_actions_app, Hp. unfold count_actions. simpl. lia.
  - lia.
  - nia.
  - lia.
Qed.

(** ** The audit copies *)

Lemma replace_slash_no_slash s : "/"%char ∉ characters (replace_slash s).
Proof.
  induction s as [|c s IH]; simpl; [apply not_elem_of_nil|].
  apply not_elem_of_cons. split; [|done].
  destruct (Ascii.eqb_spec c "/"); [discriminate|congruence].
Qed.

Lemma replace_slash_length s : String.length (replace_slash s) = String.length s.
Proof. induction s as [|c s IH]; simpl; [done|by rewrite IH]. Qed.

Lemma append_old_new x : x +:+ ".old.json" ≠ x +:+ ".new.json".
Proof. induction x as [|c x IH]; simpl; [discriminate|]. intros [= H]. by apply IH. Qed.

(** X10. Whatever the clock returns, the file names of the two audit
    copies contain no slash after the directory ["./tmp/"], are as long
    as the suffix they are made from, and the two paths differ: the
    rewritten copy never overwrites the copy of the original. *)
Theorem audit_copies_are_distinct_files w :
  ("/"%char ∉ characters (replace_slash (name_suffix w)))
  ∧ String.length (replace_slash (name_suffix w)) = String.length (name_suffix w)
  ∧ old_file_path w = "./tmp/" +:+ replace_slash (name_suffix w) +:+ ".old.json"
  ∧ new_file_path w = "./tmp/" +:+ replace_slash (name_suffix w) +:+ ".new.json"
  ∧ old_file_path w ≠ new_file_path w.
Proof.
  split; [apply replace_slash_no_slash|]. split; [apply replace_slash_length|].
  split; [done|]. split; [done|].
  unfold old_file_path, new_file_path. simpl. intros [= H].
  by apply append_old_new in H.
Qed.

(** ** References follow their definition *)

Section ReferencesFollowDefinitions.

Variables kata_id kumite_id team_id coach_id : string.

Local Abbreviation assign := (assign_new_activity_id kata_id kumite_id team_id coach_id).
Local Abbreviation adjust_defs := (adjust_definitions kata_id kumite_id team_id coach_id).
Local Abbreviation first_pass := (definitions_pass kata_id kumite_id team_id coach_id).
Local Abbreviation adjust := (adjust_ids kata_id kumite_id team_id coach_id).

(** What [adjust_ids] returns, in terms of its first loop. *)
Lemma adjust_ids_returned d d' :
  adjust d = (d', None) →
  ∃ acts' m, first_pass d = (acts', m, None) ∧ d' = rewrite_document acts' m d.
Proof.
  intros Hadj. pose proof (adjust_ids_returns _ _ _ _ _ _ Hadj) as Hres.
  destruct (first_pass d) as [[acts' m] e] eqn:H1.
  assert (e = None) as ->.
  { revert Hadj. unfold adjust_ids. rewrite H1. by destruct e. }
  rewrite (adjust_ids_completes _ _ _ _ _ _ _ H1 Hres) in Hadj. injection Hadj as <-.
  by exists acts', m.
Qed.

(** The first loop leaves the entries of other keys as they were. *)
Lemma adjust_definitions_other_keys acts : ∀ m v acts' m' x,
  adjust_defs acts m v = (acts', m', None) →
  x ∉ activity_id <$> acts → m' !! x = m !! x.
Proof.
  induction acts as [|a rest IH]; intros m v acts' m' x Hrun Hx.
  - by injection Hrun as <- <-.
  - simpl in Hrun. destruct (assign (name a) v) as [w|]; [|discriminate].
    destruct (adjust_defs rest _ _) as [[rest' m1] e] eqn:Erest.
    injection Hrun as <- <- ->. rewrite fmap_cons in Hx.
    apply not_elem_of_cons in Hx as [Hne Hx].
    rewrite (IH _ _ _ _ _ Erest Hx). by rewrite lookup_insert_ne.
Qed.

(** The map sends an original identifier to what the first loop wrote
    into the last definition that had it. *)
Lemma adjust_definitions_last acts : ∀ m v acts' m' k a,
  adjust_defs acts m v = (acts', m', None) →
  acts !! k = Some a →
  (∀ j b, k < j → acts !! j = Some b → activity_id b ≠ activity_id a) →
  m' !! activity_id a = activity_id <$> acts' !! k.
Proof.
  induction acts as [|a0 rest IH]; intros m v acts' m' k a Hrun Hk Hlast; [done|].
  simpl in Hrun. destruct (assign (name a0) v) as [w|]; [|discriminate].
  destruct (adjust_defs rest _ _) as [[rest' m1] e] eqn:Erest.
  injection Hrun as <- <- ->.
  destruct k as [|k]; simpl in Hk.
  - injection Hk as ->. simpl.
    rewrite (adjust_definitions_other_keys _ _ _ _ _ (activity_id a) Erest).
    + by rewrite lookup_insert_eq.
    + intros Hin. apply list_elem_of_fmap in Hin as (b & Hb & Hin).
      apply list_elem_of_lookup in Hin as [j Hj].
      by apply (Hlast (S j) b ltac:(lia) Hj).
  - simpl. apply (IH _ _ _ _ _ _ Erest Hk).
    intros j b Hj. apply (Hlast (S j) b). lia.
Qed.

(** X11. In a call that returns, a reference ends with the activity-id
    that the call gave to the definition it pointed to, the last
    definition with that original identifier: references follow their
    definition, whatever the names of the definitions are. *)
Theorem references_follow_definitions d d' i r k a :
  adjust d = (d', None) →
  references d !! i = Some r → definitions d !! k = Some a →
  activity_id a = ref_activity_id r →
  (∀ j b, k < j → definitions d !! j = Some b → activity_id b ≠ activity_id a) →
  ref_activity_id <$> references d' !! i = activity_id <$> definitions d' !! k
  ∧ is_Some (references d' !! i).
Proof.
  intros Hadj Hi Hk Har Hlast.
  destruct (adjust_ids_returned d d' Hadj) as (acts' & m & H1 & ->).
  pose proof (adjust_definitions_last _ _ _ _ _ _ _ H1 Hk Hlast) as Hm.
  rewrite references_rewrite_document, list_lookup_fmap, Hi. simpl.
  split; [|eauto].
  unfold definitions at 1. simpl. rewrite <- Hm, Har.
  unfold rewrite_ref. destruct (m !! ref_activity_id r) as [y|] eqn:Hy; [done|].
  rewrite <- Har in Hy. rewrite Hm in Hy.
  apply lookup_lt_Some in Hk.
  assert (length acts' = length (definitions d)) as Hlen.
  { pose proof (adjust_definitions_frame kata_id kumite_id team_id coach_id
                  (definitions d) ∅ None) as Hf.
    unfold definitions_pass in H1. unfold definitions in Hf. rewrite H1 in Hf.
    simpl in Hf. apply (f_equal length) in Hf. by rewrite !length_fmap in Hf. }
  destruct (acts' !! k) eqn:E; [discriminate|].
  apply lookup_ge_None in E. lia.
Qed.

(** X12. In a call that returns, two references that held the same
    original identifier hold the same identifier afterwards: the
    rewriting of references is a substitution. *)
Theorem equal_references_stay_equal d d' i j r1 r2 :
  adjust d = (d', None) →
  references d !! i = Some r1 → references d !! j = Some r2 →
  ref_activity_id r1 = ref_activity_id r2 →
  ∃ y, ref_activity_id <$> references d' !! i = Some y
       ∧ ref_activity_id <$> references d' !! j = Some y.
Proof.
  intros Hadj Hi Hj Heq.
  destruct (adjust_ids_returned d d' Hadj) as (acts' & m & H1 & ->).
  rewrite references_rewrite_document, !list_lookup_fmap, Hi, Hj. simpl.
  unfold rewrite_ref. rewrite Heq.
  destruct (m !! ref_activity_id r2); [eauto|].
  exists (ref_activity_id r2). by rewrite Heq.
Qed.

End ReferencesFollowDefinitions.

(** ** The further properties on the sample documents *)

Lemma scenario_returns :
  adjust_ids "N1" "N2" "N3" "N4" scenario
  = ((adjust_ids "N1" "N2" "N3" "N4" scenario).1, None).
Proof. vm_compute. reflexivity. Defined.

Lemma unknown_first_name_raises_witness :
  adjust_ids "N1" "N2" "N3" "N4"
    (small_document [mkDef "A5" "Judo" []; mkDef "A1" "Kata" []] [mkRef "A1" []])
  = (small_document [mkDef "A5" "Judo" []; mkDef "A1" "Kata" []] [mkRef "A1" []],
     Some (UnboundLocalError "new_activity_id")).
Proof.
  apply (unknown_first_name_raises "N1" "N2" "N3" "N4" _
           (mkDef "A5" "Judo" []) [mkDef "A1" "Kata" []]).
  - reflexivity.
  - reflexivity.
Defined.

Lemma unknown_name_shares_previous_identifier_witness :
  ∃ w, activity_id <$>
         definitions (adjust_ids "N1" "N2" "N3" "N4" with_unknown_name).1 !! 0 = Some w
       ∧ activity_id <$>
           definitions (adjust_ids "N1" "N2" "N3" "N4" with_unknown_name).1 !! 1 = Some w.
Proof.
  apply (unknown_name_shares_previous_identifier "N1" "N2" "N3" "N4" with_unknown_name _ 0
           (mkDef "A1" "Kata" []) (mkDef "A5" "Judo" [])).
  - vm_compute. reflexivity.
  - reflexivity.
  - reflexivity.
  - reflexivity.
Defined.

Lemma adjust_ids_leaves_only_new_identifiers_witness :
  Forall (fun a' => activity_id a' ∈ ["N1"; "N2"; "N3"; "N4"])
    (definitions (adjust_ids "N1" "N2" "N3" "N4" scenario).1)
  ∧ Forall (fun r' => ref_activity_id r' ∈ ["N1"; "N2"; "N3"; "N4"])
      (references (adjust_ids "N1" "N2" "N3" "N4" scenario).1).
Proof.
  apply (adjust_ids_leaves_only_new_identifiers "N1" "N2" "N3" "N4" scenario).
  exact scenario_returns.
Defined.

Lemma adjust_ids_idempotent_witness :
  adjust_ids "N1" "N2" "N3" "N4" (adjust_ids "N1" "N2" "N3" "N4" scenario).1
  = ((adjust_ids "N1" "N2" "N3" "N4" scenario).1, None).
Proof.
  apply (adjust_ids_idempotent "N1" "N2" "N3" "N4" scenario).
  exact scenario_returns.
Defined.

Lemma references_follow_definitions_witness :
  ref_activity_id <$> references (adjust_ids "N1" "N2" "N3" "N4" scenario).1 !! 0
  = activity_id <$> definitions (adjust_ids "N1" "N2" "N3" "N4" scenario).1 !! 1
  ∧ is_Some (references (adjust_ids "N1" "N2" "N3" "N4" scenario).1 !! 0).
Proof.
  apply (references_follow_definitions "N1" "N2" "N3" "N4" scenario _ 0
           (mkRef "A2" []) 1 (mkDef "A2" "Kumite" [])).
  - exact scenario_returns.
  - reflexivity.
  - reflexivity.
  - reflexivity.
  - intros j b Hj Hb. destruct j as [|[|[|[|j]]]]; try lia.
    + injection Hb as <-. discriminate.
    + injection Hb as <-. discriminate.
    + discriminate Hb.
Defined.

(** Two categories of the same activity. *)
Lemma equal_references_stay_equal_witness :
  ∃ y,
    ref_activity_id <$>
      references (adjust_ids "N1" "N2" "N3" "N4"
                    (set_categories [mkRef "A3" []; mkRef "A3" [("name", JStr "U14")]]
                       scenario)).1 !! 1 = Some y
    ∧ ref_activity_id <$>
        references (adjust_ids "N1" "N2" "N3" "N4"
                      (set_categories [mkRef "A3" []; mkRef "A3" [("name", JStr "U14")]]
                         scenario)).1 !! 2 = Some y.
Proof.
  apply (equal_references_stay_equal "N1" "N2" "N3" "N4"
           (set_categories [mkRef "A3" []; mkRef "A3" [("name", JStr "U14")]] scenario)
           _ 1 2 (mkRef "A3" []) (mkRef "A3" [("name", JStr "U14")])).
  - vm_compute. reflexivity.
  - reflexivity.
  - reflexivity.
  - reflexivity.
Defined.

Lemma calm_run_trace : run calm_world = Some (calm_trace, Completed).
Proof. exact calm_run. Defined.

Lemma calm_run_publishes : PutObject calm_document ∈ calm_trace.
Proof. do 18 apply list_elem_of_further. apply list_elem_of_here. Defined.

Lemma published_document_is_remapped_witness :
  post_ok calm_world = true
  ∧ adjust_ids (kata_id calm_world) (kumite_id calm_world) (team_id calm_world)
      (coach_id calm_world) (sample_data calm_world)
    = (calm_document, None)
  ∧ first_name_fixed (sample calm_world)
  ∧ all_references_resolve (sample calm_world)
  ∧ Forall (fun a => activity_id a ∈ [kata_id calm_world; kumite_id calm_world;
                                      team_id calm_world; coach_id calm_world])
      (definitions calm_document).
Proof.
  apply (published_document_is_remapped calm_world calm_trace Completed calm_document).
  - exact calm_run_trace.
  - exact calm_run_publishes.
Defined.

Lemma published_id_is_event_id_witness :
  dict_get "id" (JDict (doc_rest calm_document))
  = Some (JStr ("#" +:+ event_id calm_world))
  ∧ envelope_event_id (data calm_world) = Some (JStr ("#" +:+ event_id calm_world))
  ∧ Post (data calm_world) ∈ calm_trace.
Proof.
  apply (published_id_is_event_id calm_world calm_trace Completed calm_document).
  - exact calm_run_trace.
  - exact calm_run_publishes.
Defined.
